(** * Streamlet consensus simulator: shallow embedding and verified properties

    The development follows the C++ sources
      - [cpp/src/consensus/block.cpp]              (class [Block])
      - [cpp/src/consensus/streamlet_node.cpp]     (class [StreamletNode])
      - [cpp/src/consensus/streamlet_protocol.cpp] (class [StreamletProtocol])

    C++ [int] values are embedded as [Z]; [/] and [%] on [int] truncate
    towards zero and are therefore [Z.quot] and [Z.rem].  [size_t] values
    are embedded as [N].  The containers of a replica are finite maps and
    finite sets (stdpp's [gmap] and [gset]); vectors are lists in
    [push_back] order.  A [shared_ptr<Block>] argument that may be null is
    an [option Block]; blocks are immutable after construction, so sharing
    one block between replicas is sharing a value. *)

From Stdlib Require Import ZArith String List Ascii DecimalString HexString Lia.
From stdpp Require Import base option gmap sets list strings.

Open Scope Z_scope.

(** ** What the C++ implementation leaves to the platform *)

(** [std::hash<std::string>], the tick period of
    [std::chrono::system_clock] and [std::vector::max_size] are fixed by
    the standard library the program is linked against, not by the
    repository.  They are the fields of a class, so that every definition
    below is parametric in them. *)
Class Platform := {
  std_hash : string → N;
  ticks_per_second : Z;
  vector_max_size : Z
}.

Definition INT_MIN : Z := - 2 ^ 31.
Definition INT_MAX : Z := 2 ^ 31 - 1.
Definition in_int (z : Z) : Prop := INT_MIN ≤ z ≤ INT_MAX.

(** Conversion of an [int] argument to [size_t] (64 bits wide): the value
    modulo [2^64]. *)
Definition to_size_t (i : Z) : Z := i mod 2 ^ 64.

(** [oss << i] for a signed integer: decimal digits, with a leading [-]
    for negative values. *)
Definition dec (z : Z) : string := NilZero.string_of_int (Z.to_int z).

(** [hex << std::hex << h] for a [size_t]: lower-case hexadecimal digits,
    no prefix and no leading zeros. *)
Definition to_hex (n : N) : string :=
  match n with
  | N0 => "0"
  | Npos p => HexString.Raw.of_pos p ""
  end.

(** ** block.cpp *)

(** Modelled from the spec: the declaration of [class Block] lives in
    [consensus/types.hpp], which is not part of the sources at hand.  The
    fields are the ones the constructor's initializer list names, in that
    order; [timestamp_] is the [system_clock] reading in clock ticks. *)
Record Block := mkBlock {
  epoch_ : Z;
  parent_hash_ : string;
  transactions_ : list string;
  proposer_id_ : Z;
  timestamp_ : Z;
  hash_ : string
}.

Definition getHash (b : Block) : string := hash_ b.
Definition getEpoch (b : Block) : Z := epoch_ b.
Definition getProposerId (b : Block) : Z := proposer_id_ b.

Section BlockOps.
Context `{Platform}.

(** [std::chrono::system_clock::to_time_t]: whole seconds, truncated. *)
Definition to_time_t (tp : Z) : Z := tp ÷ ticks_per_second.

(** The string that [Block::calculateHash] streams into [oss]. *)
Definition hash_content (b : Block) : string :=
  dec (epoch_ b) +:+ ":" +:+ parent_hash_ b +:+ ":"
    +:+ fold_left (λ acc tx, acc +:+ tx +:+ "|") (transactions_ b) ""
    +:+ ":" +:+ dec (proposer_id_ b)
    +:+ ":" +:+ dec (to_time_t (timestamp_ b)).

Definition calculateHash (b : Block) : string :=
  to_hex (std_hash (hash_content b)).

(** [Block::Block]; [now] is what [system_clock::now()] returns during
    the call.  [hash_] is initialised last, from the other fields. *)
Definition Block_new (now : Z) (epoch : Z) (parent_hash : string)
    (transactions : list string) (proposer_id : Z) : Block :=
  let fields := mkBlock epoch parent_hash transactions proposer_id now "" in
  mkBlock epoch parent_hash transactions proposer_id now (calculateHash fields).
End BlockOps.

Definition isValid (b : Block) : bool :=
  negb (String.eqb (hash_ b) "") && (0 <=? epoch_ b) && (0 <=? proposer_id_ b).

(** ** streamlet_node.cpp *)

(** Modelled from the spec: the declaration of [class StreamletNode] lives
    in [consensus/streamlet_node.hpp], which is not part of the sources at
    hand.  The members are the ones the method bodies use; the spec gives
    their kinds: the chain and the finalized sequence are ordered
    sequences, the registry maps a hash to its block, the notarized blocks
    are a set of hashes, and the votes are a nested mapping
    epoch → (block hash → set of replica ids). *)
Record StreamletNode := mkNode {
  node_id_ : Z;
  n_nodes_ : Z;
  blockchain_ : list Block;
  block_by_hash_ : gmap string Block;
  votes_by_epoch_ : gmap Z (gmap string (gset Z));
  notarized_blocks_ : gset string;
  finalized_blocks_ : list Block
}.

(** [votes_by_epoch_[epoch][block_hash]] read as a value: [operator[]]
    yields an empty container for a key that is absent. *)
Definition votes_at (votes : gmap Z (gmap string (gset Z)))
    (epoch : Z) (block_hash : string) : gset Z :=
  default ∅ (default ∅ (votes !! epoch) !! block_hash).

(** [votes_by_epoch_[epoch][block_hash].insert(voter)]. *)
Definition votes_insert (votes : gmap Z (gmap string (gset Z)))
    (epoch : Z) (block_hash : string) (voter : Z) : gmap Z (gmap string (gset Z)) :=
  let inner := default ∅ (votes !! epoch) in
  let voters := default ∅ (inner !! block_hash) in
  <[epoch := <[block_hash := voters ∪ {[voter]}]> inner]> votes.

Definition notarizeBlock (block_hash : string) (s : StreamletNode) : StreamletNode :=
  mkNode (node_id_ s) (n_nodes_ s) (blockchain_ s) (block_by_hash_ s)
    (votes_by_epoch_ s) (notarized_blocks_ s ∪ {[block_hash]}) (finalized_blocks_ s).

Definition checkFinalization (s : StreamletNode) : StreamletNode :=
  let size := length (blockchain_ s) in
  if (size <? 2)%nat then s
  else
    match blockchain_ s !! (size - 1)%nat, blockchain_ s !! (size - 2)%nat with
    | Some last, Some prev =>
        if bool_decide (getHash last ∈ notarized_blocks_ s)
           && bool_decide (getHash prev ∈ notarized_blocks_ s)
        then mkNode (node_id_ s) (n_nodes_ s) (blockchain_ s) (block_by_hash_ s)
               (votes_by_epoch_ s) (notarized_blocks_ s) (finalized_blocks_ s ++ [prev])
        else s
    | _, _ => s
    end.

(** The quorum that [castVote] compares the vote count with.  The
    arithmetic is that of [int] for every replica count above [INT_MIN]
    (lemma [quorum_no_overflow]); at [INT_MIN] the subtraction overflows in
    C++, and the statements that depend on the value of the quorum exclude
    that count. *)
Definition quorum (n_nodes : Z) : Z :=
  let f := (n_nodes - 1) ÷ 3 in
  let threshold := 2 * f + 1 in
  Z.max 1 threshold.

Definition castVote (block_hash : string) (epoch : Z) (s : StreamletNode) : StreamletNode :=
  let s1 := mkNode (node_id_ s) (n_nodes_ s) (blockchain_ s) (block_by_hash_ s)
              (votes_insert (votes_by_epoch_ s) epoch block_hash (node_id_ s))
              (notarized_blocks_ s) (finalized_blocks_ s) in
  let s2 :=
    if quorum (n_nodes_ s1)
         <=? Z.of_nat (size (votes_at (votes_by_epoch_ s1) epoch block_hash))
    then notarizeBlock block_hash s1
    else s1 in
  checkFinalization s2.

(** [epoch % n_nodes_]; C++ leaves the remainder by zero undefined, which
    [runEpoch] below accounts for. *)
Definition getEpochLeader (s : StreamletNode) (epoch : Z) : Z :=
  Z.rem epoch (n_nodes_ s).

Definition findLongestNotarizedChain (s : StreamletNode) : option Block :=
  last (blockchain_ s).

Definition validateBlock (s : StreamletNode) (block : option Block) (proposer_id : Z) : bool :=
  match block with
  | None => false
  | Some b =>
      if negb (isValid b) then false
      else if negb (proposer_id =? getProposerId b) then false
      else true
  end.

Definition receiveProposal (block : option Block) (proposer_id : Z)
    (s : StreamletNode) : bool * StreamletNode :=
  match block with
  | Some b =>
      if validateBlock s block proposer_id then
        let s1 := mkNode (node_id_ s) (n_nodes_ s)
                    (blockchain_ s ++ [b])
                    (<[getHash b := b]> (block_by_hash_ s))
                    (votes_by_epoch_ s) (notarized_blocks_ s) (finalized_blocks_ s) in
        (true, castVote (getHash b) (getEpoch b) s1)
      else (false, s)
  | None => (false, s)
  end.

Section NodeOps.
Context `{Platform}.

Definition genesis_block (now : Z) : Block :=
  Block_new now 0 "GENESIS" ["genesis"%string] (-1).

Definition createGenesisBlock (now : Z) (s : StreamletNode) : StreamletNode :=
  let genesis := genesis_block now in
  mkNode (node_id_ s) (n_nodes_ s)
    (blockchain_ s ++ [genesis])
    (<[getHash genesis := genesis]> (block_by_hash_ s))
    (votes_by_epoch_ s)
    (notarized_blocks_ s ∪ {[getHash genesis]})
    (finalized_blocks_ s).

(** [StreamletNode::StreamletNode]; [now] is the clock reading seen by
    the genesis block's constructor. *)
Definition StreamletNode_new (now : Z) (node_id n_nodes : Z) : StreamletNode :=
  createGenesisBlock now (mkNode node_id n_nodes [] ∅ ∅ ∅ []).

Definition proposeBlock (now : Z) (epoch : Z) (transactions : list string)
    (s : StreamletNode) : Block * StreamletNode :=
  let head := findLongestNotarizedChain s in
  let parent := match head with Some b => getHash b | None => "GENESIS"%string end in
  let block := Block_new now epoch parent transactions (node_id_ s) in
  (block, snd (receiveProposal (Some block) (node_id_ s) s)).
End NodeOps.

(** ** streamlet_protocol.cpp *)

Module StreamletProtocol.

(** The replica member [n_nodes_], which the driver's member of the same
    name hides inside this module. *)
#[local] Abbreviation replica_n_nodes := n_nodes_ (only parsing).

(** Modelled from the spec: the declaration of [class StreamletProtocol]
    lives in [consensus/streamlet_protocol.hpp], which is not part of the
    sources at hand.  The members are the two the method bodies use. *)
Record t := mk {
  n_nodes_ : Z;
  nodes_ : list StreamletNode
}.

(** The exception [std::vector::reserve] raises for a size above
    [max_size()]. *)
Inductive exn := length_error.

Section Ops.
Context `{Platform}.

(** [StreamletProtocol::StreamletProtocol]; [clock i] is the clock
    reading seen while replica [i] is built.  [nodes_.reserve(n_nodes_)]
    converts its [int] argument to [size_t]. *)
Definition new (clock : nat → Z) (n_nodes : Z) : exn + t :=
  if vector_max_size <? to_size_t n_nodes then inl length_error
  else
    inr (mk n_nodes
           (fold_left
              (λ nodes i, nodes ++ [StreamletNode_new (clock i) (Z.of_nat i) n_nodes])
              (seq 0 (Z.to_nat n_nodes)) [])).

(** The delivery loop of [runEpoch] over the indices [idxs]; [None] is
    an access outside [nodes_]. *)
Fixpoint deliver (proposal : Block) (leader : Z) (idxs : list nat)
    (nodes : list StreamletNode) : option (list StreamletNode) :=
  match idxs with
  | [] => Some nodes
  | i :: idxs' =>
      if Z.of_nat i =? leader then deliver proposal leader idxs' nodes
      else
        nd ← nodes !! i;
        deliver proposal leader idxs'
          (<[i := snd (receiveProposal (Some proposal) leader nd)]> nodes)
  end.

(** [StreamletProtocol::runEpoch]; [None] stands for undefined
    behaviour: [front()] of an empty vector, [%] by zero, or an index
    outside [nodes_]. *)
Definition runEpoch (now : Z) (epoch : Z) (transactions : list string)
    (p : t) : option t :=
  front ← head (nodes_ p);
  if replica_n_nodes front =? 0 then None
  else
    let leader := getEpochLeader front epoch in
    if leader <? 0 then None
    else
      leaderNode ← nodes_ p !! Z.to_nat leader;
      let '(proposal, leaderNode') := proposeBlock now epoch transactions leaderNode in
      nodes' ← deliver proposal leader (seq 0 (Z.to_nat (n_nodes_ p)))
                 (<[Z.to_nat leader := leaderNode']> (nodes_ p));
      Some (mk (n_nodes_ p) nodes').

(** A sequence of [runEpoch] calls, each with the clock reading it
    sees, its epoch and its transactions. *)
Fixpoint run (calls : list (Z * Z * list string)) (p : t) : option t :=
  match calls with
  | [] => Some p
  | (now, epoch, transactions) :: calls' =>
      p' ← runEpoch now epoch transactions p;
      run calls' p'
  end.

(** The transactions [runSimulation] synthesises for epoch [e]. *)
Definition epoch_transactions (e : Z) (transactions_per_epoch : Z) : list string :=
  map (λ t, "tx_" +:+ dec e +:+ "_" +:+ dec (Z.of_nat t))
      (seq 0 (Z.to_nat transactions_per_epoch)).

(** [StreamletProtocol::runSimulation] without its console output;
    [clock e] is the clock reading seen by epoch [e].  The loop counter
    [e] is an [int] that runs from 1 while [e <= num_epochs]: for
    [num_epochs = INT_MAX] the increment after the last epoch overflows,
    which is undefined ([None]). *)
Definition runSimulation (clock : Z → Z) (num_epochs transactions_per_epoch : Z)
    (p : t) : option t :=
  if INT_MAX <=? num_epochs then None
  else
    run (map (λ k, let e := Z.of_nat k in
                   (clock e, e, epoch_transactions e transactions_per_epoch))
             (seq 1 (Z.to_nat num_epochs)))
        p.
End Ops.
End StreamletProtocol.

(** ** A concrete platform for running the model *)

Module Sample.
(** 64-bit FNV-1a, standing in for [std::hash<std::string>]. *)
Definition fnv1a_step (h : N) (c : ascii) : N :=
  ((N.lxor h (N_of_ascii c)) * 1099511628211) mod 2 ^ 64.

Fixpoint fnv1a (s : string) (h : N) : N :=
  match s with
  | EmptyString => h
  | String c s' => fnv1a s' (fnv1a_step h c)
  end.

(** Nanosecond clock, 16-byte vector elements on an LP64 target. *)
Definition platform : Platform := {|
  std_hash := λ s, fnv1a s 14695981039346656037;
  ticks_per_second := 1000000000;
  vector_max_size := (2 ^ 63 - 1) / 16
|}.

(** A degenerate [std::hash] under which all strings collide. *)
Definition colliding : Platform := {|
  std_hash := λ _, 0%N;
  ticks_per_second := 1000000000;
  vector_max_size := (2 ^ 63 - 1) / 16
|}.
End Sample.

(** ** Replica states reachable through the public operations *)

Section Reachability.
Context `{Platform}.

(** One call of a state-changing operation of the replica's public
    contract, with arbitrary arguments. *)
Inductive node_step : StreamletNode → StreamletNode → Prop :=
| step_proposeBlock now epoch transactions s :
    node_step s (snd (proposeBlock now epoch transactions s))
| step_receiveProposal block proposer_id s :
    node_step s (snd (receiveProposal block proposer_id s))
| step_castVote block_hash epoch s :
    node_step s (castVote block_hash epoch s)
| step_checkFinalization s :
    node_step s (checkFinalization s).

(** The states of a replica built at clock reading [now]. *)
Definition node_reachable (now node_id n_nodes : Z) (s : StreamletNode) : Prop :=
  rtc node_step (StreamletNode_new now node_id n_nodes) s.
End Reachability.

(** ** Definitions used by the proofs *)

(** The two writes the operations are made of, besides
    [checkFinalization]: adopting a block (the first two statements of
    [receiveProposal]) and recording a vote (the part of [castVote] before
    its call to [checkFinalization]). *)
Definition adopt (b : Block) (s : StreamletNode) : StreamletNode :=
  mkNode (node_id_ s) (n_nodes_ s) (blockchain_ s ++ [b])
    (<[getHash b := b]> (block_by_hash_ s))
    (votes_by_epoch_ s) (notarized_blocks_ s) (finalized_blocks_ s).

Definition tally (block_hash : string) (epoch : Z) (s : StreamletNode) : StreamletNode :=
  let votes := votes_insert (votes_by_epoch_ s) epoch block_hash (node_id_ s) in
  mkNode (node_id_ s) (n_nodes_ s) (blockchain_ s) (block_by_hash_ s) votes
    (if quorum (n_nodes_ s) <=? Z.of_nat (size (votes_at votes epoch block_hash))
     then notarized_blocks_ s ∪ {[block_hash]}
     else notarized_blocks_ s)
    (finalized_blocks_ s).

Section Invariants.
Context `{Platform}.

(** The invariant behind C3: the genesis hash is notarized, and every
    other notarized hash has a quorum of votes in some epoch. *)
Definition notarized_justified (n_nodes : Z) (genesis_hash : string)
    (s : StreamletNode) : Prop :=
  n_nodes_ s = n_nodes
  ∧ genesis_hash ∈ notarized_blocks_ s
  ∧ ∀ h, h ∈ notarized_blocks_ s →
      h = genesis_hash
      ∨ ∃ epoch, quorum n_nodes ≤ Z.of_nat (size (votes_at (votes_by_epoch_ s) epoch h)).

(** The invariant behind C1, for the replica with id [node_id] whose
    genesis block is [genesis]. *)
Definition votes_stay_local (node_id n_nodes : Z) (genesis : Block)
    (s : StreamletNode) : Prop :=
  node_id_ s = node_id
  ∧ n_nodes_ s = n_nodes
  ∧ (∃ rest, blockchain_ s = genesis :: rest
             ∧ (finalized_blocks_ s ≠ [] →
                ∃ b, b ∈ rest ∧ getHash b = getHash genesis))
  ∧ notarized_blocks_ s = {[getHash genesis]}
  ∧ ∀ epoch h, votes_at (votes_by_epoch_ s) epoch h ⊆ {[node_id]}.

(** Replica by replica, the second list is reached from the first by
    public operations. *)
Definition replicas_evolve : list StreamletNode → list StreamletNode → Prop :=
  Forall2 (rtc node_step).

(** The shape [run] keeps: [n] replicas, each configured for [n]. *)
Definition driver_shape (n : Z) (p : StreamletProtocol.t) : Prop :=
  StreamletProtocol.n_nodes_ p = n
  ∧ length (StreamletProtocol.nodes_ p) = Z.to_nat n
  ∧ ∀ i s, StreamletProtocol.nodes_ p !! i = Some s → n_nodes_ s = n.
End Invariants.

(** ** The executions the concrete lemmas run *)

Module Scenario.
#[local] Existing Instance Sample.platform.

(** Clock readings, in nanoseconds: replica [i] is built at [built i],
    epoch [e] runs at [epoch_time e]. *)
Definition built (i : nat) : Z := 1700000000000000000 + Z.of_nat i.
Definition epoch_time (e : Z) : Z := 1700000001000000000 + e.

(** The calls [runSimulation(3, 2)] makes. *)
Definition three_epochs : list (Z * Z * list string) :=
  map (λ k, let e := Z.of_nat k in
            (epoch_time e, e, StreamletProtocol.epoch_transactions e 2))
      (seq 1 3).

(** A single replica that has proposed one block for epoch 1. *)
Definition lone_replica : StreamletNode := StreamletNode_new (built 0) 0 1.
Definition lone_proposal : Block * StreamletNode :=
  proposeBlock (epoch_time 1) 1 ["tx_1_0"%string] lone_replica.

(** The test's scenario: four replicas, three epochs of two
    transactions. *)
Definition four_replicas : StreamletProtocol.t :=
  match StreamletProtocol.new built 4 with
  | inr p => p
  | inl _ => StreamletProtocol.mk 4 []
  end.
Definition after_three_epochs : StreamletProtocol.t :=
  default four_replicas (StreamletProtocol.run three_epochs four_replicas).
Definition replica_2 : StreamletNode :=
  default lone_replica (StreamletProtocol.nodes_ after_three_epochs !! 2%nat).
End Scenario.

(** ** streamlet_node.cpp: statistics *)

Module NodeStats.
(** Modelled from the spec: [struct NodeStats] is declared in a header
    that is not part of the sources at hand; its members are the ones
    [getStats] assigns.  The counts are container sizes. *)
Record t := mk {
  node_id : Z;
  total_blocks : nat;
  finalized_blocks : nat;
  notarized_blocks : nat;
  latest_epoch : Z
}.
End NodeStats.

Definition getStats (s : StreamletNode) : NodeStats.t :=
  NodeStats.mk (node_id_ s)
    (length (blockchain_ s))
    (length (finalized_blocks_ s))
    (size (notarized_blocks_ s))
    (match last (blockchain_ s) with
     | None => 0
     | Some b => getEpoch b
     end).

(** ** main.cpp *)

Module Main.
Section Main.
Context `{Platform}.

(** [args] holds what [std::atoi] returns for [argv[1]], [argv[2]], ...;
    its length is [argc - 1]. *)
Definition replicas (args : list Z) : Z :=
  match args !! 0%nat with
  | Some a => Z.max 1 a
  | None => 4
  end.

Definition epochs (args : list Z) : Z :=
  match args !! 1%nat with
  | Some a => Z.max 1 a
  | None => 6
  end.

(** [main] up to its [return 0]: the exception of the constructor, or
    the driver [runSimulation] leaves ([None] where it is undefined). *)
Definition main (built : nat → Z) (epoch_clock : Z → Z) (args : list Z)
    : StreamletProtocol.exn + option StreamletProtocol.t :=
  match StreamletProtocol.new built (replicas args) with
  | inl e => inl e
  | inr proto => inr (StreamletProtocol.runSimulation epoch_clock (epochs args) 3 proto)
  end.
End Main.
End Main.

(** ** Definitions used by the proofs about whole runs *)

(** Lower-case hexadecimal digits, the alphabet of a block hash. *)
Definition is_hex_digit (c : ascii) : bool :=
  existsb (Ascii.eqb c) (list_ascii_of_string "0123456789abcdef").

Fixpoint all_hex (s : string) : bool :=
  match s with
  | EmptyString => true
  | String c s' => is_hex_digit c && all_hex s'
  end.

(** The call of [runEpoch] that produced a block. *)
Definition call_of (b : Block) : Z * Z * list string :=
  (timestamp_ b, epoch_ b, transactions_ b).

(** Every block but the first names its predecessor as parent. *)
Definition linked (blocks : list Block) : Prop :=
  ∀ k b b', blocks !! k = Some b → blocks !! S k = Some b' →
    parent_hash_ b' = getHash b.

Section RunInvariants.
Context `{Platform}.

(** One accepted proposal: [receiveProposal] with a valid block announced
    under its own proposer. *)
Inductive accept_step : StreamletNode → StreamletNode → Prop :=
| accept_block b s :
    isValid b = true →
    accept_step s (snd (receiveProposal (Some b) (getProposerId b) s)).

(** The replicas of a driver whose clock readings at construction were
    [clock]: replica [i] has id [i], is configured for [n] replicas, and
    its chain is its own genesis block followed by [adopted]. *)
Definition lockstep (clock : nat → Z) (n : Z) (adopted : list Block)
    (p : StreamletProtocol.t) : Prop :=
  StreamletProtocol.n_nodes_ p = n
  ∧ length (StreamletProtocol.nodes_ p) = Z.to_nat n
  ∧ ∀ i s, StreamletProtocol.nodes_ p !! i = Some s →
      node_id_ s = Z.of_nat i
      ∧ n_nodes_ s = n
      ∧ blockchain_ s = genesis_block (clock i) :: adopted
      ∧ rtc accept_step (StreamletNode_new (clock i) (Z.of_nat i) n) s.
(** What [run] establishes about the blocks the replicas adopt: each is
    valid, was proposed by the leader of its epoch, and names its
    predecessor as parent; the first names the genesis block of its own
    proposer. *)
Definition proposals_in_order (clock : nat → Z) (n : Z) (adopted : list Block) : Prop :=
  Forall (λ b, isValid b = true ∧ getProposerId b = getEpoch b `mod` n) adopted
  ∧ linked adopted
  ∧ ∀ b, head adopted = Some b →
      parent_hash_ b = getHash (genesis_block (clock (Z.to_nat (getProposerId b)))).
End RunInvariants.

(** ** Further executions *)

Module Scenario3.
#[local] Existing Instance Sample.platform.
Import Scenario.

(** Three replicas (quorum 1) after the same three epochs. *)
Definition three_replicas : StreamletProtocol.t :=
  match StreamletProtocol.new built 3 with
  | inr p => p
  | inl _ => StreamletProtocol.mk 3 []
  end.
Definition three_after : StreamletProtocol.t :=
  default three_replicas (StreamletProtocol.run three_epochs three_replicas).
Definition small_replica_0 : StreamletNode :=
  default lone_replica (StreamletProtocol.nodes_ three_after !! 0%nat).

(** Replica 1 of four, and the block replica 1 would propose for epoch 1. *)
Definition fresh_replica_1 : StreamletNode := StreamletNode_new (built 1) 1 4.
Definition block_of_1 : Block :=
  Block_new (epoch_time 1) 1 (getHash (genesis_block (built 1))) ["tx_1_0"%string] 1.
End Scenario3.

(** ** An execution under colliding hashes *)

Module Collision.
#[local] Existing Instance Sample.colliding.

(** Four replicas and one epoch, on the platform whose [std::hash] maps
    every string to 0. *)
Definition one_epoch : list (Z * Z * list string) :=
  [(Scenario.epoch_time 1, 1, ["tx_1_0"%string])].
Definition four_replicas : StreamletProtocol.t :=
  match StreamletProtocol.new Scenario.built 4 with
  | inr p => p
  | inl _ => StreamletProtocol.mk 4 []
  end.
Definition after_one_epoch : StreamletProtocol.t :=
  default four_replicas (StreamletProtocol.run one_epoch four_replicas).
End Collision.

(** * Properties *)

(** ** Rendering of integers *)

Lemma of_pos_nonempty (k : nat) :
  ∀ p rest, (Pos.to_nat p < k)%nat → HexString.Raw.of_pos p rest ≠ "".
Proof.
  induction k as [|k IH]; intros p rest Hp; [lia|].
  destruct p as [[[[p|p|]|[p|p|]|]|[[p|p|]|[p|p|]|]|]|[[[p|p|]|[p|p|]|]|[[p|p|]|[p|p|]|]|]|];
    cbn [HexString.Raw.of_pos]; try discriminate; apply IH; lia.
Qed.

Lemma to_hex_nonempty (n : N) : to_hex n ≠ "".
Proof.
  destruct n as [|p]; [discriminate|].
  apply (of_pos_nonempty (S (Pos.to_nat p))); lia.
Qed.

Lemma to_hex_eqb (n : N) : String.eqb (to_hex n) "" = false.
Proof. apply String.eqb_neq, to_hex_nonempty. Qed.

(** The quorum computed with C++'s truncating division is the spec's
    [max(1, 2f+1)] with [f = floor((n-1)/3)], for every [n]. *)
Lemma quorum_floor (n : Z) : quorum n = Z.max 1 (2 * ((n - 1) `div` 3) + 1).
Proof.
  unfold quorum. cbv zeta.
  destruct (Z_le_gt_dec 1 n) as [Hn|Hn].
  - rewrite Z.quot_div_nonneg by lia. reflexivity.
  - pose proof (Z.quot_opp_l (1 - n) 3 ltac:(lia)) as Hq.
    replace (- (1 - n)) with (n - 1) in Hq by lia.
    pose proof (Z.quot_pos (1 - n) 3 ltac:(lia) ltac:(lia)).
    assert ((n - 1) `div` 3 < 0) by (apply Z.div_lt_upper_bound; lia).
    lia.
Qed.

Lemma quorum_one (n : Z) : n ≤ 3 → quorum n = 1.
Proof.
  intros Hn. rewrite quorum_floor.
  assert ((n - 1) `div` 3 ≤ 0) by (apply Z.lt_succ_r, Z.div_lt_upper_bound; lia).
  lia.
Qed.

Lemma quorum_ge_3 (n : Z) : 4 ≤ n → 3 ≤ quorum n.
Proof.
  intros Hn. rewrite quorum_floor.
  assert (1 ≤ (n - 1) `div` 3) by (apply Z.div_le_lower_bound; lia).
  lia.
Qed.

(** For a replica count that is an [int] above [INT_MIN], no intermediate
    value of the quorum computation leaves the range of [int]. *)
Lemma quorum_no_overflow (n : Z) :
  INT_MIN < n ≤ INT_MAX →
  in_int (n - 1) ∧ in_int ((n - 1) ÷ 3) ∧ in_int (2 * ((n - 1) ÷ 3))
  ∧ in_int (2 * ((n - 1) ÷ 3) + 1).
Proof.
  unfold in_int, INT_MIN, INT_MAX. intros Hn.
  assert (- 2 ^ 31 ≤ 3 * ((n - 1) ÷ 3) ≤ 2 ^ 31 - 2).
  { pose proof (Z.quot_rem' (n - 1) 3) as Hqr.
    pose proof (Z.rem_bound_abs (n - 1) 3 ltac:(lia)) as Hr.
    destruct (Z_le_gt_dec 0 (n - 1)).
    - pose proof (Z.rem_nonneg (n - 1) 3 ltac:(lia) ltac:(lia)). lia.
    - pose proof (Z.rem_nonpos (n - 1) 3 ltac:(lia) ltac:(lia)). lia. }
  lia.
Qed.

(** ** The vote table *)

Lemma votes_at_insert votes epoch block_hash voter :
  votes_at (votes_insert votes epoch block_hash voter) epoch block_hash
  = votes_at votes epoch block_hash ∪ {[voter]}.
Proof.
  unfold votes_at, votes_insert.
  rewrite lookup_insert_eq. cbn [from_option id]. by rewrite lookup_insert_eq.
Qed.

Lemma votes_at_insert_other votes epoch block_hash voter e h :
  (e, h) ≠ (epoch, block_hash) →
  votes_at (votes_insert votes epoch block_hash voter) e h = votes_at votes e h.
Proof.
  intros Hne. unfold votes_at, votes_insert.
  destruct (decide (epoch = e)) as [->|He].
  - rewrite lookup_insert_eq. cbn [from_option id].
    rewrite lookup_insert_ne; [done|]. intros ->. by apply Hne.
  - by rewrite lookup_insert_ne.
Qed.

Lemma votes_at_insert_mono votes epoch block_hash voter e h :
  votes_at votes e h ⊆ votes_at (votes_insert votes epoch block_hash voter) e h.
Proof.
  destruct (decide ((e, h) = (epoch, block_hash))) as [[= -> ->]|Hne].
  - rewrite votes_at_insert. set_solver.
  - by rewrite votes_at_insert_other.
Qed.

Lemma votes_insert_twice votes epoch block_hash voter :
  votes_insert (votes_insert votes epoch block_hash voter) epoch block_hash voter
  = votes_insert votes epoch block_hash voter.
Proof.
  unfold votes_insert. cbv zeta.
  rewrite lookup_insert_eq. cbn [from_option id].
  rewrite lookup_insert_eq. cbn [from_option id].
  rewrite !insert_insert_eq. do 2 f_equal.
  by rewrite <- (assoc_L (∪)), (idemp_L (∪)).
Qed.

(** ** What each replica operation changes *)

Lemma checkFinalization_fields s :
  node_id_ (checkFinalization s) = node_id_ s
  ∧ n_nodes_ (checkFinalization s) = n_nodes_ s
  ∧ blockchain_ (checkFinalization s) = blockchain_ s
  ∧ block_by_hash_ (checkFinalization s) = block_by_hash_ s
  ∧ votes_by_epoch_ (checkFinalization s) = votes_by_epoch_ s
  ∧ notarized_blocks_ (checkFinalization s) = notarized_blocks_ s.
Proof.
  unfold checkFinalization. cbv zeta.
  repeat case_match; done.
Qed.

(** The list decomposition that [back()] and [[size() - 2]] read. *)
Lemma last_two_lookup (front : list Block) prev last :
  let chain := front ++ [prev; last] in
  chain !! (length chain - 1)%nat = Some last
  ∧ chain !! (length chain - 2)%nat = Some prev
  ∧ (length chain <? 2)%nat = false.
Proof.
  cbv zeta. rewrite length_app. cbn [length].
  replace (length front + 2 - 1)%nat with (length front + 1)%nat by lia.
  replace (length front + 2 - 2)%nat with (length front + 0)%nat by lia.
  rewrite !lookup_app_r by lia.
  replace (length front + 1 - length front)%nat with 1%nat by lia.
  replace (length front + 0 - length front)%nat with 0%nat by lia.
  repeat split. apply Nat.ltb_ge. lia.
Qed.

Lemma short_or_last_two (chain : list Block) :
  (length chain < 2)%nat ∨ ∃ front prev last, chain = front ++ [prev; last].
Proof.
  destruct (decide (length chain < 2)%nat) as [|Hlen]; [by left|right].
  destruct (rev chain) as [|last [|prev tl]] eqn:Hrev.
  - apply (f_equal (@length _)) in Hrev. rewrite length_rev in Hrev. cbn in Hrev. lia.
  - apply (f_equal (@length _)) in Hrev. rewrite length_rev in Hrev. cbn in Hrev. lia.
  - exists (rev tl), prev, last.
    rewrite <- (rev_involutive chain), Hrev. cbn [rev].
    by rewrite <- app_assoc.
Qed.

Lemma checkFinalization_last_two (s : StreamletNode) front prev last :
  blockchain_ s = front ++ [prev; last] →
  checkFinalization s
  = if bool_decide (getHash last ∈ notarized_blocks_ s
                    ∧ getHash prev ∈ notarized_blocks_ s)
    then mkNode (node_id_ s) (n_nodes_ s) (blockchain_ s) (block_by_hash_ s)
           (votes_by_epoch_ s) (notarized_blocks_ s) (finalized_blocks_ s ++ [prev])
    else s.
Proof.
  intros Hchain.
  destruct (last_two_lookup front prev last) as (Hlast & Hprev & Hlen).
  cbv zeta in Hlast, Hprev, Hlen.
  unfold checkFinalization. cbv zeta.
  rewrite Hchain, Hlen, Hlast, Hprev.
  destruct (decide (getHash last ∈ notarized_blocks_ s)) as [Hl|Hl];
    destruct (decide (getHash prev ∈ notarized_blocks_ s)) as [Hp|Hp].
  - rewrite !bool_decide_eq_true_2 by auto. done.
  - rewrite (bool_decide_eq_false_2 (getHash prev ∈ _)) by done.
    rewrite andb_false_r, bool_decide_eq_false_2; [done|tauto].
  - rewrite (bool_decide_eq_false_2 (getHash last ∈ _)) by done.
    cbn [andb]. rewrite bool_decide_eq_false_2; [done|tauto].
  - rewrite (bool_decide_eq_false_2 (getHash last ∈ _)) by done.
    cbn [andb]. rewrite bool_decide_eq_false_2; [done|tauto].
Qed.

Lemma checkFinalization_short (s : StreamletNode) :
  (length (blockchain_ s) < 2)%nat → checkFinalization s = s.
Proof.
  intros Hlen. unfold checkFinalization. cbv zeta.
  apply Nat.ltb_lt in Hlen. by rewrite Hlen.
Qed.

(** C5: [checkFinalization] appends the second-to-last block of the chain to
    the finalized sequence exactly when the chain has at least two blocks
    and the hashes of its last two blocks are both in the notarized set;
    in every other case the replica is left as it was. *)
Theorem checkFinalization_tail_pair (s : StreamletNode) :
  (∀ front prev last,
      blockchain_ s = front ++ [prev; last] →
      checkFinalization s
      = if bool_decide (getHash last ∈ notarized_blocks_ s
                        ∧ getHash prev ∈ notarized_blocks_ s)
        then mkNode (node_id_ s) (n_nodes_ s) (blockchain_ s) (block_by_hash_ s)
               (votes_by_epoch_ s) (notarized_blocks_ s) (finalized_blocks_ s ++ [prev])
        else s)
  ∧ ((length (blockchain_ s) < 2)%nat → checkFinalization s = s)
  ∧ ((length (blockchain_ s) < 2)%nat
     ∨ ∃ front prev last, blockchain_ s = front ++ [prev; last]).
Proof.
  split; [|split].
  - intros front prev last. apply checkFinalization_last_two.
  - apply checkFinalization_short.
  - apply short_or_last_two.
Qed.

Lemma castVote_fields block_hash epoch s :
  let s' := castVote block_hash epoch s in
  node_id_ s' = node_id_ s
  ∧ n_nodes_ s' = n_nodes_ s
  ∧ blockchain_ s' = blockchain_ s
  ∧ block_by_hash_ s' = block_by_hash_ s
  ∧ votes_by_epoch_ s' = votes_insert (votes_by_epoch_ s) epoch block_hash (node_id_ s)
  ∧ notarized_blocks_ s'
    = if quorum (n_nodes_ s)
           <=? Z.of_nat (size (votes_at (votes_by_epoch_ s') epoch block_hash))
      then notarized_blocks_ s ∪ {[block_hash]}
      else notarized_blocks_ s.
Proof.
  cbv zeta. unfold castVote. cbv zeta.
  match goal with |- context [checkFinalization ?t] =>
    destruct (checkFinalization_fields t) as (-> & -> & -> & -> & -> & ->) end.
  destruct (quorum _ <=? _) eqn:Hq; cbn in Hq |- *; rewrite Hq; done.
Qed.

Lemma size_with_voter (voters : gset Z) (voter : Z) :
  1 ≤ Z.of_nat (size (voters ∪ {[voter]})).
Proof.
  assert (size ({[voter]} : gset Z) ≤ size (voters ∪ {[voter]}))%nat as Hle
    by (apply subseteq_size, union_subseteq_r).
  rewrite size_singleton in Hle. lia.
Qed.

Lemma validateBlock_true s b proposer_id :
  validateBlock s (Some b) proposer_id = true
  ↔ isValid b = true ∧ proposer_id = getProposerId b.
Proof.
  unfold validateBlock.
  destruct (isValid b); cbn [negb]; [|naive_solver].
  destruct (Z.eqb_spec proposer_id (getProposerId b)); cbn [negb]; naive_solver.
Qed.

Lemma isValid_Block_new `{Platform} now epoch parent transactions proposer_id :
  isValid (Block_new now epoch parent transactions proposer_id)
  = (0 <=? epoch) && (0 <=? proposer_id).
Proof.
  unfold isValid, Block_new, calculateHash. cbn [hash_ epoch_ proposer_id_].
  by rewrite to_hex_eqb.
Qed.

Lemma receiveProposal_unvalidated (s : StreamletNode) (block : option Block) proposer_id :
  validateBlock s block proposer_id = false →
  receiveProposal block proposer_id s = (false, s).
Proof.
  intros Hv. unfold receiveProposal. destruct block as [b|]; [|done]. by rewrite Hv.
Qed.

(** C7: a proposal whose block is not valid, or whose announced proposer
    is not the proposer recorded in the block, makes [receiveProposal]
    return false and leaves the whole replica (chain, registry, vote
    table, notarized set, finalized sequence) as it was. *)
Theorem receiveProposal_rejects (s : StreamletNode) (b : Block) (proposer_id : Z) :
  isValid b = false ∨ proposer_id ≠ getProposerId b →
  receiveProposal (Some b) proposer_id s = (false, s).
Proof.
  intros Hbad. apply receiveProposal_unvalidated.
  destruct (validateBlock s (Some b) proposer_id) eqn:Hv; [|done].
  apply validateBlock_true in Hv as [Hvalid Hprop].
  destruct Hbad; congruence.
Qed.

(** A null block pointer is rejected in the same way. *)
Lemma receiveProposal_null (s : StreamletNode) (proposer_id : Z) :
  receiveProposal None proposer_id s = (false, s).
Proof. done. Qed.

Lemma receiveProposal_accepts (s : StreamletNode) (b : Block) (proposer_id : Z) :
  isValid b = true → proposer_id = getProposerId b →
  receiveProposal (Some b) proposer_id s
  = (true,
     castVote (getHash b) (getEpoch b)
       (mkNode (node_id_ s) (n_nodes_ s) (blockchain_ s ++ [b])
          (<[getHash b := b]> (block_by_hash_ s))
          (votes_by_epoch_ s) (notarized_blocks_ s) (finalized_blocks_ s))).
Proof.
  intros Hvalid Hprop. unfold receiveProposal.
  by rewrite (proj2 (validateBlock_true s b proposer_id)).
Qed.

(** C6: for a replica count that is an [int] above [INT_MIN] (so that
    the threshold is computed without overflow), [castVote] adds the
    replica's own id to the vote set of (epoch, hash) and touches no other
    vote set; the hash joins the notarized set exactly when the size of
    that vote set has reached [max(1, 2f+1)] with [f = floor((n-1)/3)];
    with [n = 1] the threshold is 1, so the vote notarizes the hash at
    once, and a block the single replica proposes for a non-negative epoch
    is notarized by the proposal itself. *)
Theorem castVote_notarizes_at_quorum `{Platform}
    (block_hash : string) (epoch : Z) (s : StreamletNode) :
  INT_MIN < n_nodes_ s ≤ INT_MAX →
  let s' := castVote block_hash epoch s in
  let f := (n_nodes_ s - 1) `div` 3 in
  let threshold := Z.max 1 (2 * f + 1) in
  (in_int (n_nodes_ s - 1) ∧ in_int ((n_nodes_ s - 1) ÷ 3)
   ∧ in_int (2 * ((n_nodes_ s - 1) ÷ 3)) ∧ in_int (2 * ((n_nodes_ s - 1) ÷ 3) + 1))
  ∧ votes_at (votes_by_epoch_ s') epoch block_hash
    = votes_at (votes_by_epoch_ s) epoch block_hash ∪ {[node_id_ s]}
  ∧ node_id_ s ∈ votes_at (votes_by_epoch_ s') epoch block_hash
  ∧ (∀ e h, (e, h) ≠ (epoch, block_hash) →
       votes_at (votes_by_epoch_ s') e h = votes_at (votes_by_epoch_ s) e h)
  ∧ notarized_blocks_ s'
    = (if threshold <=? Z.of_nat (size (votes_at (votes_by_epoch_ s') epoch block_hash))
       then notarized_blocks_ s ∪ {[block_hash]}
       else notarized_blocks_ s)
  ∧ (n_nodes_ s = 1 → threshold = 1 ∧ block_hash ∈ notarized_blocks_ s')
  ∧ (∀ now transactions,
       n_nodes_ s = 1 → 0 ≤ epoch → 0 ≤ node_id_ s →
       let proposed := proposeBlock now epoch transactions s in
       blockchain_ (snd proposed) = blockchain_ s ++ [fst proposed]
       ∧ getHash (fst proposed) ∈ notarized_blocks_ (snd proposed)).
Proof.
  intros Hrange. cbv zeta.
  split; [exact (quorum_no_overflow _ Hrange)|].
  destruct (castVote_fields block_hash epoch s) as (_ & _ & _ & _ & Hvotes & Hnot).
  cbv zeta in Hvotes, Hnot.
  rewrite <- quorum_floor, Hnot, Hvotes, votes_at_insert.
  split; [done|]. split; [set_solver|].
  split; [intros e h Hne; by apply votes_at_insert_other|].
  split; [done|]. split.
  - intros Hn. rewrite Hn. split; [done|].
    change (quorum 1) with 1.
    rewrite (proj2 (Z.leb_le _ _) (size_with_voter _ _)). set_solver.
  - intros now transactions Hn Hepoch Hid. unfold proposeBlock. cbv zeta.
    cbn [fst snd].
    set (b := Block_new now epoch _ transactions (node_id_ s)).
    assert (isValid b = true) as Hvalid.
    { unfold b. rewrite isValid_Block_new.
      apply andb_true_intro; split; by apply Z.leb_le. }
    rewrite (receiveProposal_accepts s b (node_id_ s) Hvalid eq_refl). cbn [snd].
    match goal with |- context [castVote ?h ?e ?t] =>
      destruct (castVote_fields h e t) as (_ & _ & -> & _ & Hv & ->) end.
    cbv zeta in Hv. rewrite Hv, votes_at_insert.
    cbn [n_nodes_ blockchain_ notarized_blocks_]. rewrite Hn.
    change (quorum 1) with 1.
    rewrite (proj2 (Z.leb_le _ _) (size_with_voter _ _)). set_solver.
Qed.

Lemma castVote_when_settled block_hash epoch (t : StreamletNode) :
  votes_insert (votes_by_epoch_ t) epoch block_hash (node_id_ t) = votes_by_epoch_ t →
  (quorum (n_nodes_ t) ≤ Z.of_nat (size (votes_at (votes_by_epoch_ t) epoch block_hash)) →
   block_hash ∈ notarized_blocks_ t) →
  castVote block_hash epoch t = checkFinalization t.
Proof.
  intros Hvotes Hnot. unfold castVote. cbv zeta. rewrite Hvotes.
  cbn [n_nodes_ votes_by_epoch_]. f_equal.
  destruct (Z.leb_spec (quorum (n_nodes_ t))
              (Z.of_nat (size (votes_at (votes_by_epoch_ t) epoch block_hash))))
    as [Hq|Hq].
  - unfold notarizeBlock. cbn.
    replace (notarized_blocks_ t ∪ {[block_hash]}) with (notarized_blocks_ t)
      by (specialize (Hnot Hq); set_solver).
    by destruct t.
  - by destruct t.
Qed.

(** C4 (as the code has it): a second [castVote] with the same arguments
    leaves the vote table, the notarized set, the chain and the registry
    exactly as the first call left them, and does to the replica precisely
    what one more [checkFinalization] does: when the chain's last two
    blocks are both notarized the second-to-last block is appended to the
    finalized sequence once more, and otherwise the finalized sequence is
    unchanged too. *)
Theorem castVote_twice (block_hash : string) (epoch : Z) (s : StreamletNode) :
  let first := castVote block_hash epoch s in
  let second := castVote block_hash epoch first in
  second = checkFinalization first
  ∧ votes_by_epoch_ second = votes_by_epoch_ first
  ∧ notarized_blocks_ second = notarized_blocks_ first
  ∧ blockchain_ second = blockchain_ first
  ∧ block_by_hash_ second = block_by_hash_ first
  ∧ (∀ front prev last,
       blockchain_ first = front ++ [prev; last] →
       finalized_blocks_ second
       = finalized_blocks_ first
           ++ (if bool_decide (getHash last ∈ notarized_blocks_ first
                               ∧ getHash prev ∈ notarized_blocks_ first)
               then [prev] else []))
  ∧ ((length (blockchain_ first) < 2)%nat →
     finalized_blocks_ second = finalized_blocks_ first).
Proof.
  cbv zeta. set (first := castVote block_hash epoch s).
  assert (castVote block_hash epoch first = checkFinalization first) as Hsecond.
  { destruct (castVote_fields block_hash epoch s) as (Hid & Hn & _ & _ & Hvotes & Hnot).
    cbv zeta in Hid, Hn, Hvotes, Hnot. fold first in Hid, Hn, Hvotes, Hnot.
    apply castVote_when_settled.
    - rewrite Hvotes, Hid. apply votes_insert_twice.
    - intros Hq. rewrite Hn in Hq. rewrite Hnot.
      rewrite (proj2 (Z.leb_le _ _) Hq). set_solver. }
  rewrite Hsecond.
  destruct (checkFinalization_fields first) as (_ & _ & Hchain & Hreg & Hvotes & Hnot).
  repeat split; try done.
  - intros front prev last Hfront. rewrite (checkFinalization_last_two _ _ _ _ Hfront).
    case_bool_decide; cbn; [done|by rewrite app_nil_r].
  - intros Hlen. by rewrite (checkFinalization_short _ Hlen).
Qed.

(** ** Blocks and their hashes *)

Lemma string_app_nil_r (s : string) : s +:+ "" = s.
Proof.
  induction s as [|a s IH]; [done|].
  change (String a (s +:+ "") = String a s). by rewrite IH.
Qed.

Lemma string_app_assoc (s1 s2 s3 : string) : (s1 +:+ s2) +:+ s3 = s1 +:+ s2 +:+ s3.
Proof.
  induction s1 as [|a s1 IH]; [done|].
  change (String a ((s1 +:+ s2) +:+ s3) = String a (s1 +:+ s2 +:+ s3)).
  by rewrite IH.
Qed.

Lemma fold_append_acc (f : string → string) (l : list string) (acc : string) :
  fold_left (λ a x, a +:+ f x) l acc = acc +:+ String.concat "" (map f l).
Proof.
  revert acc. induction l as [|x l IH]; intros acc; cbn [fold_left map].
  - cbn. by rewrite string_app_nil_r.
  - rewrite IH. destruct l as [|y l].
    + cbn. by rewrite !string_app_nil_r.
    + cbn [map String.concat].
      change ("" +:+ ?t) with t. by rewrite string_app_assoc.
Qed.

(** C8 (as the code has it): the hash of a created block is the rendering
    of [std::hash] applied to the epoch, the parent hash, the transactions
    each followed by a bar, the proposer and the creation time in whole
    seconds; hence two create calls with the same epoch, parent hash,
    transactions and proposer whose clock readings fall in the same second
    produce the same hash, whatever the hash function is. *)
Theorem block_hash_depends_on_second `{Platform}
    (now epoch : Z) (parent_hash : string) (transactions : list string)
    (proposer_id : Z) :
  getHash (Block_new now epoch parent_hash transactions proposer_id)
  = to_hex (std_hash
      (dec epoch +:+ ":" +:+ parent_hash +:+ ":"
         +:+ String.concat "" (map (λ tx, tx +:+ "|") transactions)
         +:+ ":" +:+ dec proposer_id
         +:+ ":" +:+ dec (now ÷ ticks_per_second)))
  ∧ (∀ now', now' ÷ ticks_per_second = now ÷ ticks_per_second →
       getHash (Block_new now' epoch parent_hash transactions proposer_id)
       = getHash (Block_new now epoch parent_hash transactions proposer_id)).
Proof.
  assert (∀ t, getHash (Block_new t epoch parent_hash transactions proposer_id)
               = to_hex (std_hash
                   (dec epoch +:+ ":" +:+ parent_hash +:+ ":"
                      +:+ String.concat "" (map (λ tx, tx +:+ "|") transactions)
                      +:+ ":" +:+ dec proposer_id
                      +:+ ":" +:+ dec (t ÷ ticks_per_second)))) as Hhash.
  { intros t. unfold getHash, Block_new, calculateHash, hash_content, to_time_t.
    cbn [hash_ epoch_ parent_hash_ transactions_ proposer_id_ timestamp_].
    do 2 f_equal.
    assert (fold_left (λ acc tx, acc +:+ tx +:+ "|") transactions ""
            = String.concat "" (map (λ tx, tx +:+ "|") transactions)) as ->; [|done].
    apply (fold_append_acc (λ tx, tx +:+ "|") transactions ""). }
  split; [apply Hhash|].
  intros now' Hsec. by rewrite !Hhash, Hsec.
Qed.

(** ** Leader election *)

Lemma getEpochLeader_nonneg (s : StreamletNode) (epoch : Z) :
  1 ≤ n_nodes_ s → 0 ≤ epoch →
  getEpochLeader s epoch = epoch `mod` n_nodes_ s
  ∧ 0 ≤ getEpochLeader s epoch < n_nodes_ s
  ∧ getEpochLeader s (epoch + n_nodes_ s) = getEpochLeader s epoch.
Proof.
  intros Hn Hepoch. unfold getEpochLeader.
  rewrite !Z.rem_mod_nonneg by lia.
  split; [done|]. split; [apply Z.mod_pos_bound; lia|].
  rewrite <- (Z.mul_1_l (n_nodes_ s)) at 1.
  apply Z.mod_add. lia.
Qed.

(** ** Invariants of a replica *)

Lemma castVote_tally block_hash epoch s :
  castVote block_hash epoch s = checkFinalization (tally block_hash epoch s).
Proof.
  unfold castVote, tally. cbv zeta. cbn [n_nodes_ votes_by_epoch_].
  by destruct (quorum (n_nodes_ s) <=? _).
Qed.

Lemma receiveProposal_cases block proposer_id s :
  snd (receiveProposal block proposer_id s) = s
  ∨ ∃ b, block = Some b
         ∧ snd (receiveProposal block proposer_id s)
           = checkFinalization (tally (getHash b) (getEpoch b) (adopt b s)).
Proof.
  unfold receiveProposal. destruct block as [b|]; [|by left].
  destruct (validateBlock s (Some b) proposer_id); [|by left].
  right. exists b. split; [done|]. cbn [snd]. by rewrite castVote_tally.
Qed.

Section NodeInvariants.
Context `{Platform}.

(** A property kept by the three writes is kept by every operation. *)
Lemma node_step_preserves (P : StreamletNode → Prop) :
  (∀ s, P s → P (checkFinalization s)) →
  (∀ block_hash epoch s, P s → P (tally block_hash epoch s)) →
  (∀ b s, P s → P (adopt b s)) →
  ∀ s s', node_step s s' → P s → P s'.
Proof.
  intros Hfin Htally Hadopt s s' Hstep HP.
  destruct Hstep as [now epoch transactions s|block proposer_id s|block_hash epoch s|s].
  - unfold proposeBlock. cbv zeta. cbn [snd].
    destruct (receiveProposal_cases
                (Some (Block_new now epoch
                         match findLongestNotarizedChain s with
                         | Some b => getHash b
                         | None => "GENESIS"%string
                         end transactions (node_id_ s)))
                (node_id_ s) s) as [->|(b & _ & ->)]; auto.
  - destruct (receiveProposal_cases block proposer_id s) as [->|(b & _ & ->)]; auto.
  - rewrite castVote_tally. auto.
  - auto.
Qed.

Lemma node_steps_preserve (P : StreamletNode → Prop) :
  (∀ s, P s → P (checkFinalization s)) →
  (∀ block_hash epoch s, P s → P (tally block_hash epoch s)) →
  (∀ b s, P s → P (adopt b s)) →
  ∀ s s', rtc node_step s s' → P s → P s'.
Proof.
  intros Hfin Htally Hadopt s s' Hsteps.
  induction Hsteps as [s|s t s' Hstep _ IH]; [done|].
  intros HP. apply IH. by apply (node_step_preserves P Hfin Htally Hadopt s t).
Qed.

Lemma node_steps_identity s s' :
  rtc node_step s s' → node_id_ s' = node_id_ s ∧ n_nodes_ s' = n_nodes_ s.
Proof.
  intros Hsteps.
  apply (node_steps_preserve
           (λ t, node_id_ t = node_id_ s ∧ n_nodes_ t = n_nodes_ s)) with s;
    [| | |done|done].
  - intros t Ht. by destruct (checkFinalization_fields t) as (-> & -> & _).
  - by intros block_hash epoch t Ht.
  - by intros b t Ht.
Qed.

Lemma node_steps_notarized_mono s s' :
  rtc node_step s s' → notarized_blocks_ s ⊆ notarized_blocks_ s'.
Proof.
  intros Hsteps.
  apply (node_steps_preserve
           (λ t, notarized_blocks_ s ⊆ notarized_blocks_ t)) with s;
    [| | |done|done].
  - intros t Ht. by destruct (checkFinalization_fields t) as (_ & _ & _ & _ & _ & ->).
  - intros block_hash epoch t Ht. unfold tally. cbv zeta. cbn [notarized_blocks_].
    case_match; set_solver.
  - by intros b t Ht.
Qed.

Lemma notarized_justified_steps n_nodes genesis_hash s s' :
  rtc node_step s s' →
  notarized_justified n_nodes genesis_hash s →
  notarized_justified n_nodes genesis_hash s'.
Proof.
  apply node_steps_preserve.
  - intros t (Hn & Hg & Hj).
    destruct (checkFinalization_fields t) as (_ & Hn' & _ & _ & Hv & Hnot).
    unfold notarized_justified. by rewrite Hn', Hv, Hnot.
  - intros block_hash epoch t (Hn & Hg & Hj).
    unfold notarized_justified, tally. cbv zeta.
    cbn [n_nodes_ notarized_blocks_ votes_by_epoch_].
    split; [done|]. split; [case_match; set_solver|].
    intros h Hh.
    assert (h ∈ notarized_blocks_ t
            ∨ h = block_hash
              ∧ quorum n_nodes
                ≤ Z.of_nat (size (votes_at
                     (votes_insert (votes_by_epoch_ t) epoch block_hash (node_id_ t))
                     epoch block_hash))) as [Hold|[-> Hq]].
    { rewrite Hn in Hh.
      destruct (Z.leb_spec (quorum n_nodes)
                  (Z.of_nat (size (votes_at
                     (votes_insert (votes_by_epoch_ t) epoch block_hash (node_id_ t))
                     epoch block_hash)))); [|by left].
      apply elem_of_union in Hh as [?|Hh%elem_of_singleton]; [by left|by right]. }
    + destruct (Hj h Hold) as [->|[e He]]; [by left|right].
      exists e. etrans; [exact He|].
      apply inj_le, subseteq_size, votes_at_insert_mono.
    + right. by exists epoch.
  - by intros b t Ht.
Qed.
End NodeInvariants.

Lemma StreamletNode_new_fields `{Platform} now node_id n_nodes :
  StreamletNode_new now node_id n_nodes
  = mkNode node_id n_nodes [genesis_block now]
      {[getHash (genesis_block now) := genesis_block now]} ∅
      {[getHash (genesis_block now)]} [].
Proof.
  unfold StreamletNode_new, createGenesisBlock. cbv zeta.
  cbn [node_id_ n_nodes_ blockchain_ block_by_hash_ votes_by_epoch_
       notarized_blocks_ finalized_blocks_ app].
  f_equal. by rewrite (left_id_L ∅ (∪)).
Qed.

Lemma votes_at_empty epoch block_hash : votes_at ∅ epoch block_hash = ∅.
Proof. unfold votes_at. by rewrite lookup_empty. Qed.

(** C3 (as the code has it): in every replica state reachable through
    the public operations the genesis hash is notarized, although no vote
    was ever cast for it at initialization; every other notarized hash has,
    in some epoch, a vote set of size at least [max(1, 2f+1)] with
    [f = floor((n-1)/3)]; and a hash that is in the notarized set stays in
    it in every later state. *)
Theorem notarized_is_genesis_or_has_quorum `{Platform}
    (now node_id n_nodes : Z) (s : StreamletNode) :
  node_reachable now node_id n_nodes s →
  let genesis_hash := getHash (genesis_block now) in
  let threshold := Z.max 1 (2 * ((n_nodes - 1) `div` 3) + 1) in
  genesis_hash ∈ notarized_blocks_ s
  ∧ (∀ h, h ∈ notarized_blocks_ s → h ≠ genesis_hash →
       ∃ epoch, threshold ≤ Z.of_nat (size (votes_at (votes_by_epoch_ s) epoch h)))
  ∧ (∀ s', rtc node_step s s' → notarized_blocks_ s ⊆ notarized_blocks_ s').
Proof.
  intros Hreach. cbv zeta. rewrite <- quorum_floor.
  assert (notarized_justified n_nodes (getHash (genesis_block now)) s)
    as (_ & Hgenesis & Hjust).
  { apply (notarized_justified_steps _ _ _ _ Hreach).
    rewrite StreamletNode_new_fields. unfold notarized_justified.
    cbn [n_nodes_ notarized_blocks_]. split; [done|]. split; [set_solver|].
    intros h Hh. left. set_solver. }
  split; [done|]. split.
  - intros h Hh Hne. by destruct (Hjust h Hh).
  - apply node_steps_notarized_mono.
Qed.

(** ** Replicas of a driver with at least four replicas *)

Section NoQuorum.
Context `{Platform}.

Lemma votes_stay_local_steps node_id n_nodes genesis s s' :
  4 ≤ n_nodes →
  rtc node_step s s' →
  votes_stay_local node_id n_nodes genesis s →
  votes_stay_local node_id n_nodes genesis s'.
Proof.
  intros Hn. apply node_steps_preserve.
  - intros t (Hid & Hnn & (rest & Hchain & Hfin) & Hnot & Hvotes).
    destruct (checkFinalization_fields t) as (Hid' & Hnn' & Hchain' & _ & Hv' & Hnot').
    unfold votes_stay_local. rewrite Hid', Hnn', Hchain', Hv', Hnot'.
    repeat split; try done.
    exists rest. split; [done|]. intros Hnonempty.
    destruct (short_or_last_two (blockchain_ t))
      as [Hlen|(front & prev & last & Hfront)].
    + rewrite (checkFinalization_short _ Hlen) in Hnonempty. auto.
    + rewrite (checkFinalization_last_two _ _ _ _ Hfront) in Hnonempty.
      case_bool_decide as Hboth; [|auto].
      destruct Hboth as [Hlast _]. rewrite Hnot in Hlast.
      apply elem_of_singleton in Hlast.
      exists last. split; [|done].
      rewrite Hchain in Hfront.
      destruct front as [|g front]; simplify_eq/=; set_solver.
  - intros block_hash epoch t (Hid & Hnn & Hchain & Hnot & Hvotes).
    assert (∀ e h,
               votes_at (votes_insert (votes_by_epoch_ t) epoch block_hash (node_id_ t)) e h
               ⊆ {[node_id]}) as Hvotes'.
    { intros e h.
      destruct (decide ((e, h) = (epoch, block_hash))) as [[= -> ->]|Hne].
      - rewrite votes_at_insert, Hid. specialize (Hvotes epoch block_hash). set_solver.
      - rewrite votes_at_insert_other by done. apply Hvotes. }
    unfold votes_stay_local, tally. cbv zeta.
    cbn [node_id_ n_nodes_ blockchain_ notarized_blocks_ votes_by_epoch_ finalized_blocks_].
    repeat split; try done.
    pose proof (subseteq_size _ _ (Hvotes' epoch block_hash)) as Hsize.
    rewrite size_singleton in Hsize.
    pose proof (quorum_ge_3 n_nodes Hn).
    rewrite Hnn. rewrite (proj2 (Z.leb_gt _ _)) by lia. done.
  - intros b t (Hid & Hnn & (rest & Hchain & Hfin) & Hnot & Hvotes).
    unfold votes_stay_local, adopt.
    cbn [node_id_ n_nodes_ blockchain_ notarized_blocks_ votes_by_epoch_ finalized_blocks_].
    repeat split; try done.
    exists (rest ++ [b]). rewrite Hchain. split; [done|].
    intros Hnonempty. destruct (Hfin Hnonempty) as (b0 & Hb0 & Hhash).
    exists b0. split; [set_solver|done].
Qed.

Lemma votes_stay_local_init now node_id n_nodes :
  votes_stay_local node_id n_nodes (genesis_block now)
    (StreamletNode_new now node_id n_nodes).
Proof.
  rewrite StreamletNode_new_fields. unfold votes_stay_local.
  cbn [node_id_ n_nodes_ blockchain_ notarized_blocks_ votes_by_epoch_ finalized_blocks_].
  split; [done|]. split; [done|]. split; [|split; [done|]].
  - exists []. split; [done|]. by intros [].
  - intros epoch h. by rewrite votes_at_empty.
Qed.
End NoQuorum.

(** ** The protocol driver *)

Section Driver.
Context `{Platform}.

Lemma replicas_evolve_refl nodes : replicas_evolve nodes nodes.
Proof. apply Forall2_same_length_lookup_2; [done|]. by intros i x y -> [= ->]. Qed.

Lemma replicas_evolve_trans nodes1 nodes2 nodes3 :
  replicas_evolve nodes1 nodes2 → replicas_evolve nodes2 nodes3 →
  replicas_evolve nodes1 nodes3.
Proof.
  intros H12 H23.
  apply Forall2_same_length_lookup_2.
  - by rewrite (Forall2_length _ _ _ H12), (Forall2_length _ _ _ H23).
  - intros i x z Hx Hz.
    destruct (Forall2_lookup_l _ _ _ _ _ H12 Hx) as (y & Hy & Hxy).
    etrans; [exact Hxy|]. exact (Forall2_lookup_lr _ _ _ _ _ _ H23 Hy Hz).
Qed.

Lemma replicas_evolve_insert nodes i nd nd' :
  nodes !! i = Some nd → node_step nd nd' →
  replicas_evolve nodes (<[i := nd']> nodes).
Proof.
  intros Hi Hstep.
  rewrite <- (list_insert_id nodes i nd Hi) at 1.
  apply Forall2_insert; [apply replicas_evolve_refl|by apply rtc_once].
Qed.

Lemma deliver_evolves proposal leader idxs : ∀ nodes nodes',
  StreamletProtocol.deliver proposal leader idxs nodes = Some nodes' →
  replicas_evolve nodes nodes'.
Proof.
  induction idxs as [|i idxs IH]; intros nodes nodes' Hrun;
    cbn [StreamletProtocol.deliver] in Hrun.
  - injection Hrun as <-. apply replicas_evolve_refl.
  - destruct (Z.of_nat i =? leader); [by apply IH|].
    destruct (nodes !! i) as [nd|] eqn:Hi; [|done]. cbn in Hrun.
    eapply replicas_evolve_trans; [|by apply IH].
    apply (replicas_evolve_insert _ _ _ _ Hi).
    exact (step_receiveProposal (Some proposal) leader nd).
Qed.

Lemma runEpoch_evolves now epoch transactions p p' :
  StreamletProtocol.runEpoch now epoch transactions p = Some p' →
  StreamletProtocol.n_nodes_ p' = StreamletProtocol.n_nodes_ p
  ∧ replicas_evolve (StreamletProtocol.nodes_ p) (StreamletProtocol.nodes_ p').
Proof.
  unfold StreamletProtocol.runEpoch. intros Hrun.
  destruct (head (StreamletProtocol.nodes_ p)) as [front|]; [|done]. cbn in Hrun.
  destruct (n_nodes_ front =? 0); [done|].
  destruct (getEpochLeader front epoch <? 0); [done|].
  destruct (StreamletProtocol.nodes_ p !! Z.to_nat (getEpochLeader front epoch))
    as [leaderNode|] eqn:Hleader; [|done].
  cbn in Hrun.
  destruct (proposeBlock now epoch transactions leaderNode)
    as [proposal leaderNode'] eqn:Hpropose.
  destruct (StreamletProtocol.deliver _ _ _ _) as [nodes'|] eqn:Hdeliver; [|done].
  cbn in Hrun. injection Hrun as <-. cbn. split; [done|].
  eapply replicas_evolve_trans; [|by eapply deliver_evolves].
  apply (replicas_evolve_insert _ _ _ _ Hleader).
  replace leaderNode' with (snd (proposeBlock now epoch transactions leaderNode))
    by (by rewrite Hpropose).
  exact (step_proposeBlock now epoch transactions leaderNode).
Qed.

Lemma run_evolves calls : ∀ p p',
  StreamletProtocol.run calls p = Some p' →
  StreamletProtocol.n_nodes_ p' = StreamletProtocol.n_nodes_ p
  ∧ replicas_evolve (StreamletProtocol.nodes_ p) (StreamletProtocol.nodes_ p').
Proof.
  induction calls as [|[[now epoch] transactions] calls IH]; intros p p' Hrun;
    cbn [StreamletProtocol.run] in Hrun.
  - injection Hrun as <-. split; [done|apply replicas_evolve_refl].
  - destruct (StreamletProtocol.runEpoch now epoch transactions p) as [p1|] eqn:Hepoch;
      [|done].
    cbn in Hrun.
    destruct (runEpoch_evolves _ _ _ _ _ Hepoch) as [Hn1 Hev1].
    destruct (IH _ _ Hrun) as [Hn2 Hev2].
    split; [congruence|by eapply replicas_evolve_trans].
Qed.

Lemma push_back_loop (build : nat → StreamletNode) idxs : ∀ acc,
  fold_left (λ nodes i, nodes ++ [build i]) idxs acc = acc ++ map build idxs.
Proof.
  induction idxs as [|i idxs IH]; intros acc; cbn [fold_left map].
  - by rewrite app_nil_r.
  - by rewrite IH, <- app_assoc.
Qed.

Lemma new_replicas clock n_nodes p :
  StreamletProtocol.new clock n_nodes = inr p →
  StreamletProtocol.n_nodes_ p = n_nodes
  ∧ length (StreamletProtocol.nodes_ p) = Z.to_nat n_nodes
  ∧ ∀ i s, StreamletProtocol.nodes_ p !! i = Some s →
      s = StreamletNode_new (clock i) (Z.of_nat i) n_nodes.
Proof.
  unfold StreamletProtocol.new.
  destruct (vector_max_size <? to_size_t n_nodes); [done|].
  intros [= <-]. cbn [StreamletProtocol.n_nodes_ StreamletProtocol.nodes_].
  rewrite push_back_loop, app_nil_l.
  split; [done|]. split; [by rewrite length_map, length_seq|].
  intros i s Hi.
  change (map ?f ?l) with (f <$> l) in Hi.
  rewrite list_lookup_fmap in Hi.
  destruct (seq 0 (Z.to_nat n_nodes) !! i) as [j|] eqn:Hj; [|done].
  apply lookup_seq in Hj as [-> _]. by injection Hi as <-.
Qed.

(** Every replica of a driver state reached by [run] is a reachable
    state of the replica the constructor built at that index. *)
Lemma driver_replica_reachable clock n_nodes calls p0 p i s :
  StreamletProtocol.new clock n_nodes = inr p0 →
  StreamletProtocol.run calls p0 = Some p →
  StreamletProtocol.nodes_ p !! i = Some s →
  node_reachable (clock i) (Z.of_nat i) n_nodes s.
Proof.
  intros Hnew Hrun Hi.
  destruct (new_replicas _ _ _ Hnew) as (_ & _ & Hinit).
  destruct (run_evolves _ _ _ Hrun) as [_ Hev].
  destruct (Forall2_lookup_r _ _ _ _ _ Hev Hi) as (s0 & Hs0 & Hsteps).
  unfold node_reachable. by rewrite <- (Hinit _ _ Hs0).
Qed.
End Driver.

Section DriverRuns.
Context `{Platform}.

Lemma new_shape clock n p :
  StreamletProtocol.new clock n = inr p → driver_shape n p.
Proof.
  intros Hnew. destruct (new_replicas _ _ _ Hnew) as (Hn & Hlen & Hinit).
  split; [done|]. split; [done|].
  intros i s Hi. rewrite (Hinit _ _ Hi). by rewrite StreamletNode_new_fields.
Qed.

Lemma runEpoch_shape now epoch transactions n p p' :
  StreamletProtocol.runEpoch now epoch transactions p = Some p' →
  driver_shape n p → driver_shape n p'.
Proof.
  intros Hrun (Hn & Hlen & Hnodes).
  destruct (runEpoch_evolves _ _ _ _ _ Hrun) as [Hn' Hev].
  split; [congruence|]. split; [by rewrite <- (Forall2_length _ _ _ Hev)|].
  intros i s' Hi.
  destruct (Forall2_lookup_r _ _ _ _ _ Hev Hi) as (s & Hs & Hsteps).
  destruct (node_steps_identity _ _ Hsteps) as [_ ->]. by eapply Hnodes.
Qed.

Lemma deliver_defined proposal leader idxs : ∀ nodes,
  (∀ i, i ∈ idxs → (i < length nodes)%nat) →
  is_Some (StreamletProtocol.deliver proposal leader idxs nodes).
Proof.
  induction idxs as [|i idxs IH]; intros nodes Hidxs;
    cbn [StreamletProtocol.deliver]; [done|].
  destruct (Z.of_nat i =? leader).
  - apply IH. intros j Hj. apply Hidxs. by right.
  - destruct (lookup_lt_is_Some_2 nodes i) as [nd ->]; [apply Hidxs; by left|].
    cbn [mbind option_bind]. apply IH. intros j Hj.
    rewrite length_insert. apply Hidxs. by right.
Qed.

(** For a non-negative epoch and at least one replica, [runEpoch] is
    defined: it touches no index outside [nodes_]. *)
Lemma runEpoch_defined now epoch transactions n p :
  1 ≤ n → 0 ≤ epoch → driver_shape n p →
  is_Some (StreamletProtocol.runEpoch now epoch transactions p).
Proof.
  intros Hn Hepoch (Hnn & Hlen & Hnodes). unfold StreamletProtocol.runEpoch.
  destruct (StreamletProtocol.nodes_ p) as [|front rest] eqn:Hlist;
    [cbn in Hlen; lia|].
  cbn [head mbind option_bind].
  assert (n_nodes_ front = n) as Hfront by (by apply (Hnodes 0%nat)).
  rewrite (proj2 (Z.eqb_neq _ _)) by lia.
  destruct (getEpochLeader_nonneg front epoch ltac:(lia) Hepoch) as (_ & Hrange & _).
  rewrite (proj2 (Z.ltb_ge _ _)) by lia.
  destruct (lookup_lt_is_Some_2 (front :: rest) (Z.to_nat (getEpochLeader front epoch)))
    as [leaderNode ->]; [lia|].
  cbn [mbind option_bind].
  destruct (proposeBlock now epoch transactions leaderNode) as [proposal leaderNode'].
  destruct (deliver_defined proposal (getEpochLeader front epoch)
              (seq 0 (Z.to_nat (StreamletProtocol.n_nodes_ p)))
              (<[Z.to_nat (getEpochLeader front epoch) := leaderNode']> (front :: rest)))
    as [nodes' ->]; [|done].
  intros i Hi. apply elem_of_seq in Hi. rewrite length_insert. lia.
Qed.

Lemma run_defined clock n calls p0 :
  1 ≤ n →
  StreamletProtocol.new clock n = inr p0 →
  Forall (λ call, 0 ≤ call.1.2) calls →
  is_Some (StreamletProtocol.run calls p0).
Proof.
  intros Hn Hnew Hcalls. pose proof (new_shape _ _ _ Hnew) as Hshape.
  clear Hnew. revert p0 Hshape.
  induction Hcalls as [|[[now epoch] transactions] calls Hepoch _ IH];
    intros p Hshape; cbn [StreamletProtocol.run]; [done|].
  destruct (runEpoch_defined now epoch transactions n p Hn Hepoch Hshape) as [p' Hp'].
  rewrite Hp'. cbn [mbind option_bind]. apply IH.
  by eapply runEpoch_shape.
Qed.

(** C1 (as the code has it): in a driver built with at least four
    replicas, after any sequence of [runEpoch] calls, every vote set of a
    replica holds at most that replica's own id, so its size stays below
    the quorum [max(1, 2f+1) ≥ 3]; the notarized set of a replica is still
    the singleton of its genesis hash; and the finalized sequence is
    empty as long as no block adopted after genesis has the genesis
    block's hash (finalization compares blocks by hash). *)
Theorem no_quorum_with_four_replicas (clock : nat → Z) (n : Z)
    (calls : list (Z * Z * list string)) (p0 p : StreamletProtocol.t) :
  4 ≤ n →
  StreamletProtocol.new clock n = inr p0 →
  StreamletProtocol.run calls p0 = Some p →
  ∀ i s, StreamletProtocol.nodes_ p !! i = Some s →
    let genesis := genesis_block (clock i) in
    let threshold := Z.max 1 (2 * ((n - 1) `div` 3) + 1) in
    node_id_ s = Z.of_nat i
    ∧ (∀ epoch h, votes_at (votes_by_epoch_ s) epoch h ⊆ {[node_id_ s]})
    ∧ 3 ≤ threshold
    ∧ (∀ epoch h, Z.of_nat (size (votes_at (votes_by_epoch_ s) epoch h)) < threshold)
    ∧ notarized_blocks_ s = {[getHash genesis]}
    ∧ head (blockchain_ s) = Some genesis
    ∧ ((∀ b, b ∈ tail (blockchain_ s) → getHash b ≠ getHash genesis) →
       finalized_blocks_ s = []).
Proof.
  intros Hn Hnew Hrun i s Hi. cbv zeta. rewrite <- quorum_floor.
  pose proof (driver_replica_reachable _ _ _ _ _ _ _ Hnew Hrun Hi) as Hreach.
  destruct (votes_stay_local_steps (Z.of_nat i) n (genesis_block (clock i)) _ s Hn Hreach
              (votes_stay_local_init _ _ _))
    as (Hid & Hnn & (rest & Hchain & Hfin) & Hnot & Hvotes).
  pose proof (quorum_ge_3 n Hn) as Hq.
  rewrite Hid, Hchain. cbn [head tail].
  repeat split; try done.
  - intros epoch h. pose proof (subseteq_size _ _ (Hvotes epoch h)) as Hsize.
    rewrite size_singleton in Hsize. lia.
  - intros Hfree. destruct (finalized_blocks_ s) as [|b0 fin] eqn:Hf; [done|].
    destruct Hfin as (b & Hb & Hhash); [done|]. by destruct (Hfree b Hb).
Qed.

(** C2 (as the code has it): the constructor makes no check of the
    replica count.  For a negative count it fails, but only because
    [reserve] refuses the count converted to [size_t]; for a count of
    zero it succeeds and yields a driver without replicas, on which
    [runEpoch] has no defined behaviour. *)
Theorem construction_with_no_replicas (clock : nat → Z) (n : Z) :
  0 ≤ vector_max_size < 2 ^ 63 →
  in_int n → n < 1 →
  (n < 0 → StreamletProtocol.new clock n = inl StreamletProtocol.length_error)
  ∧ (n = 0 →
     StreamletProtocol.new clock n = inr (StreamletProtocol.mk 0 [])
     ∧ ∀ now epoch transactions,
         StreamletProtocol.runEpoch now epoch transactions (StreamletProtocol.mk 0 [])
         = None).
Proof.
  unfold in_int, INT_MIN. intros Hmax Hint Hn. split.
  - intros Hneg. unfold StreamletProtocol.new, to_size_t.
    assert (n `mod` 2 ^ 64 = n + 2 ^ 64) as ->.
    { symmetry. apply (Z.mod_unique_pos _ _ (-1)); lia. }
    by rewrite (proj2 (Z.ltb_lt _ _)) by lia.
  - intros ->. split; [|done].
    unfold StreamletProtocol.new, to_size_t.
    change (0 `mod` 2 ^ 64) with 0.
    by rewrite (proj2 (Z.ltb_ge _ _)) by lia.
Qed.

(** C9 (as the code has it): for a replica configured for [n ≥ 1]
    replicas and an epoch that is not negative, the leader is
    [epoch mod n], a replica index, and the same as for [epoch + n];
    every replica configured for the same [n] computes the same leader,
    in particular all replicas of one driver, in any state the driver
    reaches. *)
Theorem epoch_leader_round_robin (s : StreamletNode) (epoch : Z) :
  1 ≤ n_nodes_ s → 0 ≤ epoch →
  getEpochLeader s epoch = epoch `mod` n_nodes_ s
  ∧ 0 ≤ getEpochLeader s epoch < n_nodes_ s
  ∧ getEpochLeader s (epoch + n_nodes_ s) = getEpochLeader s epoch
  ∧ (∀ s', n_nodes_ s' = n_nodes_ s → getEpochLeader s' epoch = getEpochLeader s epoch)
  ∧ (∀ clock calls p0 p i s',
       StreamletProtocol.new clock (n_nodes_ s) = inr p0 →
       StreamletProtocol.run calls p0 = Some p →
       StreamletProtocol.nodes_ p !! i = Some s' →
       getEpochLeader s' epoch = getEpochLeader s epoch).
Proof.
  intros Hn Hepoch.
  destruct (getEpochLeader_nonneg s epoch Hn Hepoch) as (Hmod & Hrange & Hperiod).
  repeat split; try done; try lia.
  - intros s' Hs'. unfold getEpochLeader. by rewrite Hs'.
  - intros clock calls p0 p i s' Hnew Hrun Hi.
    pose proof (driver_replica_reachable _ _ _ _ _ _ _ Hnew Hrun Hi) as Hreach.
    destruct (node_steps_identity _ _ Hreach) as [_ Hs'].
    rewrite StreamletNode_new_fields in Hs'. cbn in Hs'.
    unfold getEpochLeader. by rewrite Hs'.
Qed.
End DriverRuns.

(** ** Concrete executions *)

Module Executions.
#[local] Existing Instance Sample.platform.
Import Scenario.

(** Witness of C1: in the test's scenario replica 2 has adopted three
    blocks, none of them notarized or finalized. *)
Lemma no_quorum_in_test_scenario :
  StreamletProtocol.new built 4 = inr four_replicas
  ∧ StreamletProtocol.runSimulation epoch_time 3 2 four_replicas = Some after_three_epochs
  ∧ StreamletProtocol.nodes_ after_three_epochs !! 2%nat = Some replica_2
  ∧ length (blockchain_ replica_2) = 4%nat
  ∧ Forall (λ b, getHash b ≠ getHash (genesis_block (built 2)))
      (tail (blockchain_ replica_2))
  ∧ notarized_blocks_ replica_2 = {[getHash (genesis_block (built 2))]}
  ∧ finalized_blocks_ replica_2 = [].
Proof.
  assert (StreamletProtocol.new built 4 = inr four_replicas) as Hnew
    by (vm_compute; reflexivity).
  assert (StreamletProtocol.run three_epochs four_replicas = Some after_three_epochs)
    as Hrun by (vm_compute; reflexivity).
  assert (StreamletProtocol.nodes_ after_three_epochs !! 2%nat = Some replica_2)
    as Hreplica by (vm_compute; reflexivity).
  assert (Forall (λ b, getHash b ≠ getHash (genesis_block (built 2)))
            (tail (blockchain_ replica_2))) as Hfree
    by (apply (bool_decide_unpack _); vm_compute; exact I).
  destruct (no_quorum_with_four_replicas built 4 three_epochs
              four_replicas after_three_epochs ltac:(lia) Hnew Hrun 2%nat replica_2 Hreplica)
    as (_ & _ & _ & _ & Hnot & _ & Hfin).
  split; [exact Hnew|]. split; [exact Hrun|]. split; [exact Hreplica|].
  split; [vm_compute; reflexivity|]. split; [exact Hfree|]. split; [exact Hnot|].
  apply Hfin. apply Forall_forall. exact Hfree.
Defined.
(** Counterexample to C2 as stated: a replica count of zero is accepted. *)
Lemma zero_replicas_are_accepted :
  StreamletProtocol.new built 0 = inr (StreamletProtocol.mk 0 []).
Proof. vm_compute. reflexivity. Qed.

(** Witness of C2: a count of -1 is refused by [reserve]. *)
Lemma negative_count_is_refused :
  0 ≤ vector_max_size < 2 ^ 63 ∧ in_int (-1) ∧ -1 < 1
  ∧ StreamletProtocol.new built (-1) = inl StreamletProtocol.length_error.
Proof.
  assert (0 ≤ vector_max_size < 2 ^ 63) as Hmax
    by (split; vm_compute; [discriminate|reflexivity]).
  assert (in_int (-1)) as Hint by (unfold in_int, INT_MIN, INT_MAX; lia).
  assert (-1 < 1) as Hlt by lia.
  split; [exact Hmax|]. split; [exact Hint|]. split; [exact Hlt|].
  destruct (construction_with_no_replicas built (-1) Hmax Hint Hlt) as [Hneg _].
  apply Hneg. lia.
Defined.

(** Counterexample to C3 as stated: a fresh replica of a four-replica
    driver has its genesis hash notarized, the quorum is 3, and no vote
    set for that hash holds any vote. *)
Lemma genesis_is_notarized_without_votes :
  let s := StreamletNode_new (built 0) 0 4 in
  let h := getHash (genesis_block (built 0)) in
  h ∈ notarized_blocks_ s
  ∧ Z.max 1 (2 * ((4 - 1) `div` 3) + 1) = 3
  ∧ votes_by_epoch_ s = ∅
  ∧ ∀ epoch, size (votes_at (votes_by_epoch_ s) epoch h) = 0%nat.
Proof.
  cbv zeta. rewrite StreamletNode_new_fields.
  cbn [notarized_blocks_ votes_by_epoch_].
  split; [set_solver|]. split; [done|]. split; [done|].
  intros epoch. by rewrite votes_at_empty.
Qed.

(** Witness of C3: the block a single replica proposes is notarized, with
    the replica's own vote as its quorum. *)
Lemma proposed_block_has_quorum :
  node_reachable (built 0) 0 1 (snd lone_proposal)
  ∧ getHash (fst lone_proposal) ∈ notarized_blocks_ (snd lone_proposal)
  ∧ getHash (fst lone_proposal) ≠ getHash (genesis_block (built 0))
  ∧ ∃ epoch,
      1 ≤ Z.of_nat (size (votes_at (votes_by_epoch_ (snd lone_proposal)) epoch
                            (getHash (fst lone_proposal)))).
Proof.
  assert (node_reachable (built 0) 0 1 (snd lone_proposal)) as Hreach
    by (apply rtc_once; exact (step_proposeBlock _ _ _ _)).
  assert (getHash (fst lone_proposal) ∈ notarized_blocks_ (snd lone_proposal)) as Hin
    by (apply (bool_decide_unpack _); vm_compute; exact I).
  assert (getHash (fst lone_proposal) ≠ getHash (genesis_block (built 0))) as Hne
    by (vm_compute; discriminate).
  destruct (notarized_is_genesis_or_has_quorum (built 0) 0 1 (snd lone_proposal) Hreach)
    as (_ & Hquorum & _).
  split; [exact Hreach|]. split; [exact Hin|]. split; [exact Hne|].
  exact (Hquorum _ Hin Hne).
Defined.

(** Counterexample to C4 as stated: on a single replica whose chain is
    genesis followed by its own notarized proposal, every further
    [castVote] for that proposal appends genesis to the finalized sequence
    again, so the second call does not leave the replica as the first
    call left it. *)
Lemma second_vote_finalizes_again :
  let h := getHash (fst lone_proposal) in
  let first := castVote h 1 (snd lone_proposal) in
  let second := castVote h 1 first in
  finalized_blocks_ first = [genesis_block (built 0); genesis_block (built 0)]
  ∧ finalized_blocks_ second
    = [genesis_block (built 0); genesis_block (built 0); genesis_block (built 0)]
  ∧ second ≠ first.
Proof.
  cbv zeta.
  assert (∀ s s', length (finalized_blocks_ s) ≠ length (finalized_blocks_ s') → s ≠ s')
    as Hlen by (intros s s' Hne ->; done).
  split; [vm_compute; reflexivity|]. split; [vm_compute; reflexivity|].
  apply Hlen. vm_compute. discriminate.
Qed.

(** Witness of C7: replica 1 of four is handed a block of proposer 0 that
    is announced as coming from replica 2. *)
Lemma misattributed_proposal_is_rejected :
  let s := StreamletNode_new (built 1) 1 4 in
  let b := Block_new (epoch_time 1) 1 (getHash (genesis_block (built 0))) ["tx_1_0"%string] 0 in
  (isValid b = false ∨ 2 ≠ getProposerId b)
  ∧ receiveProposal (Some b) 2 s = (false, s).
Proof.
  cbv zeta.
  assert (∀ b, getProposerId b = 0 → isValid b = false ∨ 2 ≠ getProposerId b) as Hbad
    by (intros b ->; right; lia).
  split; [by apply Hbad|].
  apply receiveProposal_rejects. by apply Hbad.
Defined.

(** Counterexample to C8 as stated: two create calls with the same
    inputs, almost a second apart, give the same hash. *)
Lemma same_second_same_hash :
  1700000001000000000 ≠ 1700000001999999999
  ∧ getHash (Block_new 1700000001000000000 1 "aac0e84c14ece3cf" ["tx_1_0"%string] 1)
    = getHash (Block_new 1700000001999999999 1 "aac0e84c14ece3cf" ["tx_1_0"%string] 1).
Proof. split; [lia|]. vm_compute. reflexivity. Qed.

(** Counterexample to C9 as stated: with four replicas the leader of
    epoch -1 is -1, which is neither [-1 mod 4] nor the leader of epoch
    [-1 + 4]. *)
Lemma leader_of_negative_epoch :
  let s := StreamletNode_new (built 0) 0 4 in
  getEpochLeader s (-1) = -1
  ∧ getEpochLeader s (-1 + 4) = 3
  ∧ (-1) `mod` 4 = 3.
Proof. cbv zeta. rewrite StreamletNode_new_fields. by vm_compute. Qed.

(** Witness of C9: with four replicas the leader of epochs 5 and 9 is
    replica 1. *)
Lemma leader_of_epoch_5 :
  let s := StreamletNode_new (built 0) 0 4 in
  1 ≤ n_nodes_ s ∧ 0 ≤ 5
  ∧ getEpochLeader s 5 = 1 ∧ getEpochLeader s (5 + 4) = 1.
Proof.
  cbv zeta. set (s := StreamletNode_new (built 0) 0 4).
  assert (1 ≤ n_nodes_ s) as Hn by (vm_compute; discriminate).
  assert (0 ≤ 5) as Hepoch by lia.
  destruct (epoch_leader_round_robin s 5 Hn Hepoch) as (Hmod & _ & Hperiod & _).
  assert (getEpochLeader s 5 = 1) as Hleader by (rewrite Hmod; vm_compute; reflexivity).
  split; [exact Hn|]. split; [exact Hepoch|]. split; [exact Hleader|].
  exact (eq_trans Hperiod Hleader).
Defined.
End Executions.

(** * Further properties of the replica *)

Lemma of_pos_all_hex (k : nat) :
  ∀ p rest, (Pos.to_nat p < k)%nat → all_hex rest = true →
    all_hex (HexString.Raw.of_pos p rest) = true.
Proof.
  induction k as [|k IH]; intros p rest Hp Hrest; [lia|].
  destruct p as [[[[p|p|]|[p|p|]|]|[[p|p|]|[p|p|]|]|]|[[[p|p|]|[p|p|]|]|[[p|p|]|[p|p|]|]|]|];
    cbn [HexString.Raw.of_pos];
    try (apply IH; [lia|]); cbn; by rewrite ?Hrest.
Qed.

Lemma to_hex_all_hex (n : N) : all_hex (to_hex n) = true.
Proof.
  destruct n as [|p]; [done|].
  apply (of_pos_all_hex (S (Pos.to_nat p))); [lia|done].
Qed.

(** X1: a constructed block carries the arguments it was built from and a
    hash that is a non-empty string of lower-case hexadecimal digits,
    whatever [std::hash] returns; so it is valid exactly when its epoch and
    its proposer are not negative. *)
Theorem constructed_block_is_well_formed `{Platform}
    (now epoch : Z) (parent_hash : string) (transactions : list string)
    (proposer_id : Z) :
  let b := Block_new now epoch parent_hash transactions proposer_id in
  call_of b = (now, epoch, transactions)
  ∧ parent_hash_ b = parent_hash
  ∧ getProposerId b = proposer_id
  ∧ String.eqb (getHash b) "" = false
  ∧ all_hex (getHash b) = true
  ∧ isValid b = (0 <=? epoch) && (0 <=? proposer_id)
  ∧ (isValid b = true ↔ 0 ≤ epoch ∧ 0 ≤ proposer_id).
Proof.
  cbv zeta. unfold isValid, Block_new, calculateHash, getHash, call_of.
  cbn [hash_ epoch_ proposer_id_ timestamp_ transactions_ parent_hash_].
  rewrite to_hex_eqb, to_hex_all_hex. cbn [negb andb].
  do 6 (split; [done|]).
  by rewrite andb_true_iff, !Z.leb_le.
Qed.

Lemma checkFinalization_finalized (s : StreamletNode) :
  finalized_blocks_ (checkFinalization s) = finalized_blocks_ s
  ∨ ∃ front prev last,
      blockchain_ s = front ++ [prev; last]
      ∧ getHash last ∈ notarized_blocks_ s
      ∧ getHash prev ∈ notarized_blocks_ s
      ∧ finalized_blocks_ (checkFinalization s) = finalized_blocks_ s ++ [prev].
Proof.
  destruct (short_or_last_two (blockchain_ s)) as [Hlen|(front & prev & last & Hfront)].
  - left. by rewrite (checkFinalization_short _ Hlen).
  - rewrite (checkFinalization_last_two _ _ _ _ Hfront).
    case_bool_decide as Hboth; [|by left].
    right. exists front, prev, last. by destruct Hboth.
Qed.

Lemma tally_notarized block_hash epoch (s : StreamletNode) :
  notarized_blocks_ (tally block_hash epoch s) = notarized_blocks_ s
  ∨ notarized_blocks_ (tally block_hash epoch s) = notarized_blocks_ s ∪ {[block_hash]}
    ∧ quorum (n_nodes_ s)
      ≤ Z.of_nat (size (votes_at (votes_by_epoch_ s) epoch block_hash ∪ {[node_id_ s]})).
Proof.
  unfold tally. cbv zeta. cbn [notarized_blocks_]. rewrite votes_at_insert.
  destruct (Z.leb_spec (quorum (n_nodes_ s))
              (Z.of_nat (size (votes_at (votes_by_epoch_ s) epoch block_hash
                                 ∪ {[node_id_ s]})))); [by right|by left].
Qed.

Section ReplicaHistory.
Context `{Platform}.

(** X2: no public operation ever removes anything from a replica: the
    chain and the finalized sequence only grow at their ends, registered
    hashes stay registered, and vote sets and the notarized set only
    gain elements. *)
Theorem replica_state_only_grows (s s' : StreamletNode) :
  rtc node_step s s' →
  blockchain_ s `prefix_of` blockchain_ s'
  ∧ finalized_blocks_ s `prefix_of` finalized_blocks_ s'
  ∧ dom (block_by_hash_ s) ⊆ dom (block_by_hash_ s')
  ∧ notarized_blocks_ s ⊆ notarized_blocks_ s'
  ∧ ∀ epoch h, votes_at (votes_by_epoch_ s) epoch h ⊆ votes_at (votes_by_epoch_ s') epoch h.
Proof.
  intros Hsteps.
  apply (node_steps_preserve
           (λ t, blockchain_ s `prefix_of` blockchain_ t
                 ∧ finalized_blocks_ s `prefix_of` finalized_blocks_ t
                 ∧ dom (block_by_hash_ s) ⊆ dom (block_by_hash_ t)
                 ∧ notarized_blocks_ s ⊆ notarized_blocks_ t
                 ∧ ∀ epoch h, votes_at (votes_by_epoch_ s) epoch h
                              ⊆ votes_at (votes_by_epoch_ t) epoch h)) with s;
    [| | |done|done].
  - intros t (Hchain & Hfin & Hreg & Hnot & Hvotes).
    destruct (checkFinalization_fields t) as (_ & _ & -> & -> & -> & ->).
    split; [done|]. split; [|done].
    destruct (checkFinalization_finalized t) as [->|(_ & prev & _ & _ & _ & _ & ->)];
      [done|by apply prefix_app_r].
  - intros block_hash epoch t (Hchain & Hfin & Hreg & Hnot & Hvotes).
    split; [done|]. split; [done|]. split; [done|]. split.
    + destruct (tally_notarized block_hash epoch t) as [->|[-> _]]; set_solver.
    + intros e h. etrans; [apply Hvotes|]. apply votes_at_insert_mono.
  - intros b t (Hchain & Hfin & Hreg & Hnot & Hvotes).
    unfold adopt. cbn [blockchain_ finalized_blocks_ block_by_hash_
                       notarized_blocks_ votes_by_epoch_].
    split; [by apply prefix_app_r|]. split; [done|]. split; [|done].
    rewrite dom_insert_L. set_solver.
Qed.

(** X3: in every state a replica reaches through its public operations,
    the chain starts with the replica's genesis block, the hash of every
    block of the chain is a key of the registry, and every finalized block
    is a block of the chain whose hash is notarized (hence registered). *)
Theorem replica_registry_covers_chain (now node_id n_nodes : Z) (s : StreamletNode) :
  node_reachable now node_id n_nodes s →
  head (blockchain_ s) = Some (genesis_block now)
  ∧ (∀ b, b ∈ blockchain_ s → is_Some (block_by_hash_ s !! getHash b))
  ∧ (∀ b, b ∈ finalized_blocks_ s →
       b ∈ blockchain_ s
       ∧ getHash b ∈ notarized_blocks_ s
       ∧ is_Some (block_by_hash_ s !! getHash b)).
Proof.
  intros Hreach.
  assert (head (blockchain_ s) = Some (genesis_block now)
          ∧ (∀ b, b ∈ blockchain_ s → is_Some (block_by_hash_ s !! getHash b))
          ∧ (∀ b, b ∈ finalized_blocks_ s →
               b ∈ blockchain_ s ∧ getHash b ∈ notarized_blocks_ s))
    as (Hhead & Hreg & Hfin).
  2: { split; [done|]. split; [done|]. intros b0 Hb0.
       destruct (Hfin b0 Hb0) as [Hin Hnot]. auto. }
  unfold node_reachable in Hreach.
  apply (node_steps_preserve
           (λ t, head (blockchain_ t) = Some (genesis_block now)
                 ∧ (∀ b, b ∈ blockchain_ t → is_Some (block_by_hash_ t !! getHash b))
                 ∧ (∀ b, b ∈ finalized_blocks_ t →
                      b ∈ blockchain_ t ∧ getHash b ∈ notarized_blocks_ t)))
    with (StreamletNode_new now node_id n_nodes); [| | |done|].
  - intros t (Hhead & Hreg & Hfin).
    destruct (checkFinalization_fields t) as (_ & _ & -> & -> & _ & ->).
    split; [done|]. split; [done|].
    destruct (checkFinalization_finalized t)
      as [->|(front & prev & last & Hfront & _ & Hprev & ->)]; [done|].
    intros b [Hb|Hb%list_elem_of_singleton]%elem_of_app; [by apply Hfin|].
    subst b. split; [|done]. rewrite Hfront. set_solver.
  - intros block_hash epoch t (Hhead & Hreg & Hfin).
    split; [done|]. split; [done|].
    intros b Hb. destruct (Hfin b Hb) as [Hin Hnot]. split; [done|].
    destruct (tally_notarized block_hash epoch t) as [->|[-> _]]; set_solver.
  - intros b t (Hhead & Hreg & Hfin).
    unfold adopt. cbn [blockchain_ finalized_blocks_ block_by_hash_ notarized_blocks_].
    split; [|split].
    + destruct (blockchain_ t); [done|exact Hhead].
    + intros b0 [Hb0|Hb0%list_elem_of_singleton]%elem_of_app.
      * apply lookup_insert_is_Some'. right. by apply Hreg.
      * subst b0. rewrite lookup_insert_eq. eauto.
    + intros b0 Hb0. destruct (Hfin b0 Hb0) as [Hin Hnot].
      split; [|done]. apply elem_of_app. by left.
  - rewrite StreamletNode_new_fields.
    cbn [blockchain_ finalized_blocks_ block_by_hash_ notarized_blocks_].
    split; [done|]. split.
    + intros b ->%list_elem_of_singleton. rewrite lookup_singleton_eq. eauto.
    + by intros b ?%elem_of_nil.
Qed.
End ReplicaHistory.

Section ReplicaOperations.
Context `{Platform}.

Lemma reachable_replica_shape (now node_id n_nodes : Z) (s : StreamletNode) :
  node_reachable now node_id n_nodes s →
  node_id_ s = node_id ∧ n_nodes_ s = n_nodes
  ∧ ∃ rest, blockchain_ s = genesis_block now :: rest.
Proof.
  intros Hreach. unfold node_reachable in Hreach.
  destruct (node_steps_identity _ _ Hreach) as [Hid Hn].
  rewrite StreamletNode_new_fields in Hid, Hn. cbn in Hid, Hn.
  split; [done|]. split; [done|].
  apply (node_steps_preserve
           (λ t, ∃ rest, blockchain_ t = genesis_block now :: rest))
    with (StreamletNode_new now node_id n_nodes); [| | |done|].
  - intros t Ht. by destruct (checkFinalization_fields t) as (_ & _ & -> & _).
  - by intros block_hash epoch t Ht.
  - intros b t [rest Ht]. exists (rest ++ [b]). unfold adopt. cbn. by rewrite Ht.
  - exists []. by rewrite StreamletNode_new_fields.
Qed.

(** X4: the votes a replica holds are its own, for every replica count;
    with at most three replicas (quorum 1; the count an [int] above
    [INT_MIN], where the quorum is computed without overflow) a hash is
    notarized exactly when it is the genesis hash or the replica has voted
    for it in some epoch, and with four or more replicas (up to [INT_MAX])
    the notarized set is the genesis hash alone, whatever public
    operations are called. *)
Theorem notarized_set_characterised (now node_id n_nodes : Z) (s : StreamletNode) :
  node_reachable now node_id n_nodes s →
  (∀ epoch h, votes_at (votes_by_epoch_ s) epoch h ⊆ {[node_id]})
  ∧ (INT_MIN < n_nodes ≤ 3 →
     ∀ h, h ∈ notarized_blocks_ s
          ↔ h = getHash (genesis_block now)
            ∨ ∃ epoch, node_id ∈ votes_at (votes_by_epoch_ s) epoch h)
  ∧ (4 ≤ n_nodes ≤ INT_MAX →
     notarized_blocks_ s = {[getHash (genesis_block now)]}).
Proof.
  intros Hreach. unfold node_reachable in Hreach.
  assert (node_id_ s = node_id ∧ n_nodes_ s = n_nodes
          ∧ (∀ epoch h, votes_at (votes_by_epoch_ s) epoch h ⊆ {[node_id]})
          ∧ (n_nodes ≤ 3 →
             ∀ h, h ∈ notarized_blocks_ s
                  ↔ h = getHash (genesis_block now)
                    ∨ ∃ epoch, node_id ∈ votes_at (votes_by_epoch_ s) epoch h))
    as (_ & _ & Hvotes & Hsmall).
  { apply (node_steps_preserve
             (λ t, node_id_ t = node_id ∧ n_nodes_ t = n_nodes
                   ∧ (∀ epoch h, votes_at (votes_by_epoch_ t) epoch h ⊆ {[node_id]})
                   ∧ (n_nodes ≤ 3 →
                      ∀ h, h ∈ notarized_blocks_ t
                           ↔ h = getHash (genesis_block now)
                             ∨ ∃ epoch, node_id ∈ votes_at (votes_by_epoch_ t) epoch h)))
      with (StreamletNode_new now node_id n_nodes); [| | |done|].
    - intros t Ht. by destruct (checkFinalization_fields t) as (-> & -> & _ & _ & -> & ->).
    - intros block_hash epoch t (Hid & Hn & Hv & Hiff).
      unfold tally. cbv zeta.
      cbn [node_id_ n_nodes_ votes_by_epoch_ notarized_blocks_].
      split; [done|]. split; [done|]. split.
      + intros e h. destruct (decide ((e, h) = (epoch, block_hash))) as [[= -> ->]|Hne].
        * rewrite votes_at_insert, Hid. specialize (Hv epoch block_hash). set_solver.
        * rewrite votes_at_insert_other by done. apply Hv.
      + intros Hle h. rewrite Hn, (quorum_one _ Hle), votes_at_insert.
        rewrite (proj2 (Z.leb_le _ _) (size_with_voter _ _)).
        rewrite elem_of_union, elem_of_singleton, (Hiff Hle h). split.
        * intros [[->|[e He]]| ->]; [by left| |].
          -- right. exists e. by apply (votes_at_insert_mono _ epoch block_hash).
          -- right. exists epoch. rewrite votes_at_insert, Hid. set_solver.
        * intros [->|[e He]]; [by left; left|].
          destruct (decide ((e, h) = (epoch, block_hash))) as [[= -> ->]|Hne];
            [by right|].
          rewrite votes_at_insert_other in He by done. left. right. by exists e.
    - by intros b t Ht.
    - rewrite StreamletNode_new_fields.
      cbn [node_id_ n_nodes_ votes_by_epoch_ notarized_blocks_].
      split; [done|]. split; [done|]. split.
      + intros e h. by rewrite votes_at_empty.
      + intros _ h. rewrite elem_of_singleton. split; [by left|].
        intros [->|[e He]]; [done|]. rewrite votes_at_empty in He. set_solver. }
  split; [done|]. split; [intros [_ Hle]; by apply Hsmall|].
  intros [Hbig _].
  by destruct (votes_stay_local_steps node_id n_nodes (genesis_block now) _ s Hbig Hreach
                 (votes_stay_local_init _ _ _)) as (_ & _ & _ & Hnot & _).
Qed.

(** X5: a valid block announced under its own proposer is accepted:
    [receiveProposal] returns true, the block becomes the last block of the
    chain and the chain head, the registry maps its hash to it and is
    otherwise unchanged, the replica's id joins the vote set of the block's
    epoch and hash, and the statistics count one block more with the
    block's epoch as the latest. *)
Theorem accepted_proposal_is_adopted (s : StreamletNode) (b : Block) (proposer_id : Z) :
  isValid b = true → proposer_id = getProposerId b →
  let r := receiveProposal (Some b) proposer_id s in
  fst r = true
  ∧ blockchain_ (snd r) = blockchain_ s ++ [b]
  ∧ findLongestNotarizedChain (snd r) = Some b
  ∧ block_by_hash_ (snd r) !! getHash b = Some b
  ∧ (∀ h, h ≠ getHash b → block_by_hash_ (snd r) !! h = block_by_hash_ s !! h)
  ∧ votes_at (votes_by_epoch_ (snd r)) (getEpoch b) (getHash b)
    = votes_at (votes_by_epoch_ s) (getEpoch b) (getHash b) ∪ {[node_id_ s]}
  ∧ NodeStats.total_blocks (getStats (snd r)) = S (NodeStats.total_blocks (getStats s))
  ∧ NodeStats.latest_epoch (getStats (snd r)) = getEpoch b.
Proof.
  intros Hvalid Hprop. cbv zeta.
  rewrite (receiveProposal_accepts s b proposer_id Hvalid Hprop). cbn [fst snd].
  match goal with |- context [castVote ?h ?e ?t] =>
    destruct (castVote_fields h e t) as (_ & _ & Hchain & Hreg & Hvotes & _) end.
  cbv zeta in Hchain, Hreg, Hvotes.
  cbn [blockchain_ block_by_hash_ votes_by_epoch_ node_id_] in Hchain, Hreg, Hvotes.
  unfold findLongestNotarizedChain, getStats.
  cbn [NodeStats.total_blocks NodeStats.latest_epoch].
  rewrite Hchain, Hreg, Hvotes, votes_at_insert, last_snoc, length_app.
  split; [done|]. split; [done|]. split; [done|].
  split; [apply lookup_insert_eq|].
  split; [intros h Hh; by rewrite lookup_insert_ne|].
  split; [done|]. split; [cbn; lia|done].
Qed.

(** X6: on a reachable replica [proposeBlock] never falls back to the
    parent "GENESIS": the block it returns extends the last block of the
    chain and carries the replica's id.  The replica adopts it when the
    epoch and the replica's id are not negative; otherwise the block is
    still returned but the replica is left unchanged. *)
Theorem proposeBlock_extends_head (built node_id n_nodes : Z) (s : StreamletNode)
    (now epoch : Z) (transactions : list string) :
  node_reachable built node_id n_nodes s →
  let r := proposeBlock now epoch transactions s in
  ∃ head,
    findLongestNotarizedChain s = Some head
    ∧ fst r = Block_new now epoch (getHash head) transactions node_id
    ∧ (0 ≤ epoch → 0 ≤ node_id →
       blockchain_ (snd r) = blockchain_ s ++ [fst r]
       ∧ findLongestNotarizedChain (snd r) = Some (fst r))
    ∧ (epoch < 0 ∨ node_id < 0 → snd r = s).
Proof.
  intros Hreach. cbv zeta.
  destruct (reachable_replica_shape _ _ _ _ Hreach) as (Hid & _ & rest & Hchain).
  assert (is_Some (findLongestNotarizedChain s)) as [head Hhead].
  { unfold findLongestNotarizedChain. apply last_is_Some. by rewrite Hchain. }
  exists head. unfold proposeBlock. cbv zeta. rewrite Hhead, Hid. cbn [fst snd].
  split; [done|]. split; [done|].
  set (b := Block_new now epoch (getHash head) transactions node_id).
  assert (isValid b = (0 <=? epoch) && (0 <=? node_id)) as Hvalid
    by apply isValid_Block_new.
  split.
  - intros Hepoch Hnode.
    rewrite (proj2 (Z.leb_le _ _) Hepoch), (proj2 (Z.leb_le _ _) Hnode) in Hvalid.
    rewrite (receiveProposal_accepts s b node_id Hvalid eq_refl). cbn [snd].
    match goal with |- context [castVote ?h ?e ?t] =>
      destruct (castVote_fields h e t) as (_ & _ & Hc & _) end.
    cbv zeta in Hc. unfold findLongestNotarizedChain. rewrite Hc. cbn [blockchain_].
    by rewrite last_snoc.
  - intros Hneg.
    rewrite receiveProposal_unvalidated; [done|].
    unfold validateBlock. rewrite Hvalid.
    destruct Hneg as [Hneg|Hneg].
    + by rewrite (proj2 (Z.leb_gt _ _) Hneg).
    + rewrite (proj2 (Z.leb_gt _ _) Hneg). by rewrite andb_false_r.
Qed.

(** X7: [receiveProposal] does not recognise a block it already holds:
    delivering the same valid block a second time appends it to the chain
    again, leaves the registry, the votes and the notarized set as the
    first delivery left them, and, when the block is notarized, finalizes
    the block as the predecessor of its own copy. *)
Theorem duplicate_delivery_is_adopted_again (s : StreamletNode) (b : Block) :
  isValid b = true →
  let once := snd (receiveProposal (Some b) (getProposerId b) s) in
  let twice := snd (receiveProposal (Some b) (getProposerId b) once) in
  blockchain_ twice = blockchain_ s ++ [b; b]
  ∧ block_by_hash_ twice = block_by_hash_ once
  ∧ votes_by_epoch_ twice = votes_by_epoch_ once
  ∧ notarized_blocks_ twice = notarized_blocks_ once
  ∧ finalized_blocks_ twice
    = finalized_blocks_ once
        ++ (if bool_decide (getHash b ∈ notarized_blocks_ once) then [b] else []).
Proof.
  intros Hvalid. cbv zeta.
  rewrite (receiveProposal_accepts s b _ Hvalid eq_refl). cbn [snd].
  set (once := castVote (getHash b) (getEpoch b) _).
  rewrite (receiveProposal_accepts once b _ Hvalid eq_refl). cbn [snd].
  destruct (castVote_fields (getHash b) (getEpoch b)
              (mkNode (node_id_ s) (n_nodes_ s) (blockchain_ s ++ [b])
                 (<[getHash b := b]> (block_by_hash_ s)) (votes_by_epoch_ s)
                 (notarized_blocks_ s) (finalized_blocks_ s)))
    as (Hid1 & Hn1 & Hchain1 & Hreg1 & Hvotes1 & Hnot1).
  cbv zeta in Hid1, Hn1, Hchain1, Hreg1, Hvotes1, Hnot1.
  fold once in Hid1, Hn1, Hchain1, Hreg1, Hvotes1, Hnot1.
  cbn [node_id_ n_nodes_ blockchain_ block_by_hash_ votes_by_epoch_ notarized_blocks_]
    in Hid1, Hn1, Hchain1, Hreg1, Hvotes1, Hnot1.
  assert (votes_insert (votes_by_epoch_ once) (getEpoch b) (getHash b) (node_id_ once)
          = votes_by_epoch_ once) as Hsame
    by (rewrite Hvotes1, Hid1; apply votes_insert_twice).
  rewrite castVote_tally.
  set (t2 := tally (getHash b) (getEpoch b) _).
  assert (blockchain_ t2 = blockchain_ s ++ [b; b]) as Hchain2.
  { unfold t2, tally. cbn [blockchain_]. rewrite Hchain1.
    by rewrite <- app_assoc. }
  assert (block_by_hash_ t2 = block_by_hash_ once) as Hreg2.
  { unfold t2, tally. cbn [block_by_hash_]. rewrite Hreg1. apply insert_insert_eq. }
  assert (votes_by_epoch_ t2 = votes_by_epoch_ once) as Hvotes2.
  { unfold t2, tally. cbn [votes_by_epoch_ node_id_]. exact Hsame. }
  assert (notarized_blocks_ t2 = notarized_blocks_ once) as Hnot2.
  { unfold t2, tally. cbv zeta. cbn [notarized_blocks_ votes_by_epoch_ node_id_ n_nodes_].
    rewrite Hsame, Hn1, Hnot1.
    destruct (quorum (n_nodes_ s) <=? _); [|done].
    by rewrite <- (assoc_L (∪)), (idemp_L (∪)). }
  assert (finalized_blocks_ t2 = finalized_blocks_ once) as Hfin2 by done.
  destruct (checkFinalization_fields t2) as (_ & _ & -> & -> & -> & ->).
  do 4 (split; [done|]).
  rewrite (checkFinalization_last_two t2 (blockchain_ s) b b Hchain2).
  rewrite Hnot2.
  destruct (decide (getHash b ∈ notarized_blocks_ once)) as [Hin|Hout].
  - rewrite !bool_decide_eq_true_2 by auto. cbn [finalized_blocks_]. by rewrite Hfin2.
  - rewrite !bool_decide_eq_false_2 by tauto. by rewrite app_nil_r.
Qed.
End ReplicaOperations.

(** ** The genesis block *)

Section GenesisBlock.
Context `{Platform}.

Lemma reachable_genesis_kept (now node_id n_nodes : Z) (s : StreamletNode) :
  node_reachable now node_id n_nodes s →
  is_Some (block_by_hash_ s !! getHash (genesis_block now))
  ∧ getHash (genesis_block now) ∈ notarized_blocks_ s.
Proof.
  intros Hreach. unfold node_reachable in Hreach. split.
  - apply (node_steps_preserve
             (λ t, is_Some (block_by_hash_ t !! getHash (genesis_block now))))
      with (StreamletNode_new now node_id n_nodes); [| | |done|].
    + intros t Ht. by destruct (checkFinalization_fields t) as (_ & _ & _ & -> & _).
    + by intros block_hash epoch t Ht.
    + intros b t Ht. unfold adopt. cbn [block_by_hash_].
      apply lookup_insert_is_Some'. by right.
    + rewrite StreamletNode_new_fields. cbn [block_by_hash_].
      rewrite lookup_singleton_eq. eauto.
  - apply (node_steps_notarized_mono _ _ Hreach).
    rewrite StreamletNode_new_fields. cbn [notarized_blocks_]. set_solver.
Qed.

(** C10: the genesis block a replica creates at initialization has epoch
    0, parent "GENESIS" and proposer -1, and fails [isValid] because of
    that negative proposer; [receiveProposal] applied to it returns false
    and changes nothing, for every announced proposer and every replica in
    every state; yet the block is the whole chain of the fresh replica,
    registered under its hash and notarized, and in every state the
    replica reaches it is still the first block of the chain, its hash
    still a key of the registry and still notarized. *)
Theorem genesis_block_is_never_accepted (now node_id n_nodes proposer_id : Z) :
  let fresh := StreamletNode_new now node_id n_nodes in
  let genesis := genesis_block now in
  getEpoch genesis = 0
  ∧ parent_hash_ genesis = "GENESIS"
  ∧ getProposerId genesis = -1
  ∧ (0 <=? getProposerId genesis) = false
  ∧ isValid genesis = false
  ∧ (∀ s, receiveProposal (Some genesis) proposer_id s = (false, s))
  ∧ blockchain_ fresh = [genesis]
  ∧ block_by_hash_ fresh !! getHash genesis = Some genesis
  ∧ getHash genesis ∈ notarized_blocks_ fresh
  ∧ (∀ s, node_reachable now node_id n_nodes s →
       head (blockchain_ s) = Some genesis
       ∧ genesis ∈ blockchain_ s
       ∧ is_Some (block_by_hash_ s !! getHash genesis)
       ∧ getHash genesis ∈ notarized_blocks_ s
       ∧ receiveProposal (Some genesis) proposer_id s = (false, s)).
Proof.
  cbv zeta.
  assert (isValid (genesis_block now) = false) as Hinvalid.
  { unfold genesis_block. rewrite isValid_Block_new. done. }
  assert (∀ s, receiveProposal (Some (genesis_block now)) proposer_id s = (false, s))
    as Hreject.
  { intros s. apply receiveProposal_unvalidated. unfold validateBlock.
    by rewrite Hinvalid. }
  do 5 (split; [done|]). split; [exact Hreject|].
  rewrite StreamletNode_new_fields.
  cbn [blockchain_ block_by_hash_ notarized_blocks_].
  split; [done|]. split; [apply lookup_singleton_eq|]. split; [set_solver|].
  intros s Hreach.
  destruct (reachable_replica_shape _ _ _ _ Hreach) as (_ & _ & rest & Hchain).
  destruct (reachable_genesis_kept _ _ _ _ Hreach) as [Hreg Hnot].
  rewrite Hchain. split; [done|]. split; [by left|]. done.
Qed.
End GenesisBlock.

(** * Further properties of the driver *)

Section EpochRounds.
Context `{Platform}.

(** What the delivery loop leaves at each index. *)
Lemma deliver_lookup proposal leader idxs : ∀ nodes nodes',
  NoDup idxs →
  StreamletProtocol.deliver proposal leader idxs nodes = Some nodes' →
  ∀ i, nodes' !! i
       = if decide (i ∈ idxs ∧ Z.of_nat i ≠ leader)
         then (λ s, snd (receiveProposal (Some proposal) leader s)) <$> nodes !! i
         else nodes !! i.
Proof.
  induction idxs as [|i0 idxs IH]; intros nodes nodes' Hnodup Hrun i;
    cbn [StreamletProtocol.deliver] in Hrun.
  - injection Hrun as <-. case_decide as Hin; [|done].
    destruct Hin as [Hin _]. by apply elem_of_nil in Hin.
  - apply NoDup_cons in Hnodup as [Hfresh Hnodup].
    destruct (Z.eqb_spec (Z.of_nat i0) leader) as [Hlead|Hlead].
    + rewrite (IH _ _ Hnodup Hrun i).
      repeat case_decide; try done; exfalso; set_solver.
    + destruct (nodes !! i0) as [nd|] eqn:Hi0; [|done].
      cbn [mbind option_bind] in Hrun.
      rewrite (IH _ _ Hnodup Hrun i).
      destruct (decide (i = i0)) as [->|Hne].
      * rewrite decide_False by tauto.
        rewrite decide_True by (split; [by left|done]).
        rewrite list_lookup_insert_eq by (by eapply lookup_lt_Some).
        by rewrite Hi0.
      * rewrite list_lookup_insert_ne by done.
        repeat case_decide; try done; exfalso; set_solver.
Qed.

(** One round, for a leader index that is not negative: every replica,
    the leader included, is handed the leader's proposal. *)
Lemma runEpoch_map now epoch transactions n p :
  1 ≤ n → 0 ≤ Z.rem epoch n →
  driver_shape n p →
  (∀ i s, StreamletProtocol.nodes_ p !! i = Some s → node_id_ s = Z.of_nat i) →
  ∃ leaderNode,
    StreamletProtocol.nodes_ p !! Z.to_nat (Z.rem epoch n) = Some leaderNode
    ∧ StreamletProtocol.runEpoch now epoch transactions p
      = Some (StreamletProtocol.mk n
                ((λ s, snd (receiveProposal
                              (Some (fst (proposeBlock now epoch transactions leaderNode)))
                              (Z.rem epoch n) s))
                   <$> StreamletProtocol.nodes_ p)).
Proof.
  intros Hn Hleader (Hnn & Hlen & Hnodes) Hids.
  pose proof (Z.rem_bound_abs epoch n ltac:(lia)) as Hbound.
  assert (Z.to_nat (Z.rem epoch n) < length (StreamletProtocol.nodes_ p))%nat as Hlt by lia.
  destruct (lookup_lt_is_Some_2 _ _ Hlt) as [leaderNode Hlookup].
  exists leaderNode. split; [done|].
  unfold StreamletProtocol.runEpoch.
  destruct (StreamletProtocol.nodes_ p) as [|front rest] eqn:Hlist;
    [cbn in Hlen; lia|].
  cbn [head mbind option_bind].
  assert (n_nodes_ front = n) as Hfront by (by apply (Hnodes 0%nat)).
  unfold getEpochLeader. rewrite Hfront.
  rewrite (proj2 (Z.eqb_neq _ _)) by lia.
  rewrite (proj2 (Z.ltb_ge _ _)) by lia.
  rewrite Hlookup. cbn [mbind option_bind].
  assert (node_id_ leaderNode = Z.rem epoch n) as Hid
    by (rewrite (Hids _ _ Hlookup); lia).
  unfold proposeBlock at 1. cbv zeta. rewrite Hid.
  set (proposal := Block_new now epoch _ transactions (Z.rem epoch n)).
  assert (fst (proposeBlock now epoch transactions leaderNode) = proposal) as ->
    by (unfold proposeBlock; cbv zeta; by rewrite Hid).
  set (f := λ s, snd (receiveProposal (Some proposal) (Z.rem epoch n) s)).
  destruct (deliver_defined proposal (Z.rem epoch n)
              (seq 0 (Z.to_nat (StreamletProtocol.n_nodes_ p)))
              (<[Z.to_nat (Z.rem epoch n) := f leaderNode]> (front :: rest)))
    as [nodes' Hdeliver].
  { intros i Hi. apply elem_of_seq in Hi. rewrite length_insert. lia. }
  fold (f leaderNode). rewrite Hdeliver. cbn [mbind option_bind].
  rewrite Hnn. do 2 f_equal.
  apply list_eq. intros i.
  rewrite (deliver_lookup _ _ _ _ _ (NoDup_seq _ _) Hdeliver i), list_lookup_fmap.
  destruct (decide (i = Z.to_nat (Z.rem epoch n))) as [->|Hne].
  - rewrite decide_False by lia.
    rewrite list_lookup_insert_eq by done. by rewrite Hlookup.
  - rewrite list_lookup_insert_ne by done.
    case_decide as Hin; [done|].
    destruct ((front :: rest) !! i) as [s|] eqn:Hi; [|done].
    exfalso. apply Hin. split; [|lia].
    apply elem_of_seq. apply lookup_lt_Some in Hi. lia.
Qed.

Lemma accept_steps_node_steps s s' : rtc accept_step s s' → rtc node_step s s'.
Proof.
  induction 1 as [|s t s' Hstep _ IH]; [done|].
  eapply rtc_l; [|exact IH]. destruct Hstep. constructor.
Qed.

Lemma new_lockstep clock n p :
  StreamletProtocol.new clock n = inr p → lockstep clock n [] p.
Proof.
  intros Hnew. destruct (new_replicas _ _ _ Hnew) as (Hn & Hlen & Hinit).
  split; [done|]. split; [done|].
  intros i s Hi. rewrite (Hinit _ _ Hi), StreamletNode_new_fields. by cbn.
Qed.

Lemma lockstep_shape clock n adopted p :
  lockstep clock n adopted p →
  driver_shape n p
  ∧ ∀ i s, StreamletProtocol.nodes_ p !! i = Some s → node_id_ s = Z.of_nat i.
Proof.
  intros (Hn & Hlen & Hnodes). split; [split; [done|split; [done|]]|].
  - intros i s Hi. by destruct (Hnodes i s Hi) as (_ & ? & _).
  - intros i s Hi. by destruct (Hnodes i s Hi) as (? & _).
Qed.

(** One round for a non-negative epoch keeps the replicas in lockstep:
    all of them adopt the leader's proposal. *)
Lemma runEpoch_lockstep clock n adopted now epoch transactions p :
  1 ≤ n → 0 ≤ epoch →
  lockstep clock n adopted p →
  ∃ head,
    last (genesis_block (clock (Z.to_nat (epoch `mod` n))) :: adopted) = Some head
    ∧ let proposal := Block_new now epoch (getHash head) transactions (epoch `mod` n) in
      ∃ p', StreamletProtocol.runEpoch now epoch transactions p = Some p'
            ∧ lockstep clock n (adopted ++ [proposal]) p'.
Proof.
  intros Hn Hepoch Hlock.
  destruct (lockstep_shape _ _ _ _ Hlock) as [Hshape Hids].
  destruct Hlock as (Hnn & Hlen & Hnodes).
  assert (Z.rem epoch n = epoch `mod` n) as Hrem by (apply Z.rem_mod_nonneg; lia).
  pose proof (Z.mod_pos_bound epoch n ltac:(lia)) as Hbound.
  destruct (runEpoch_map now epoch transactions n p Hn ltac:(lia) Hshape Hids)
    as (leaderNode & Hlookup & Hrun).
  rewrite Hrem in Hlookup, Hrun.
  destruct (Hnodes _ _ Hlookup) as (Hid & _ & Hchain & _).
  assert (is_Some (last (genesis_block (clock (Z.to_nat (epoch `mod` n))) :: adopted)))
    as [head Hhead] by (by apply last_is_Some).
  exists head. split; [done|]. cbv zeta.
  assert (fst (proposeBlock now epoch transactions leaderNode)
          = Block_new now epoch (getHash head) transactions (epoch `mod` n)) as Hproposal.
  { unfold proposeBlock, findLongestNotarizedChain. cbv zeta. cbn [fst].
    rewrite Hchain, Hhead, Hid. f_equal. lia. }
  rewrite Hproposal in Hrun.
  set (proposal := Block_new now epoch (getHash head) transactions (epoch `mod` n)) in *.
  assert (isValid proposal = true) as Hvalid.
  { unfold proposal. rewrite isValid_Block_new.
    apply andb_true_intro. split; apply Z.leb_le; lia. }
  eexists. split; [exact Hrun|].
  split; [done|]. split; [cbn; by rewrite length_fmap|].
  intros i s' Hi. cbn [StreamletProtocol.nodes_] in Hi.
  rewrite list_lookup_fmap in Hi.
  destruct (StreamletProtocol.nodes_ p !! i) as [s|] eqn:Hs; [|done].
  assert (s' = snd (receiveProposal (Some proposal) (epoch `mod` n) s)) as ->
    by (injection Hi as <-; reflexivity).
  clear Hi.
  destruct (Hnodes _ _ Hs) as (Hids' & Hns & Hchains & Hsteps).
  assert (accept_step s (snd (receiveProposal (Some proposal) (epoch `mod` n) s)))
    as Hstep by exact (accept_block proposal s Hvalid).
  rewrite (receiveProposal_accepts s proposal (epoch `mod` n) Hvalid eq_refl)
    in Hstep |- *.
  cbn [snd] in Hstep |- *.
  match goal with |- context [castVote ?h ?e ?t] =>
    destruct (castVote_fields h e t) as (Hf1 & Hf2 & Hf3 & _) end.
  cbv zeta in Hf1, Hf2, Hf3.
  split; [by rewrite Hf1|]. split; [by rewrite Hf2|].
  split; [rewrite Hf3; cbn [blockchain_]; by rewrite Hchains|].
  eapply rtc_r; [exact Hsteps|exact Hstep].
Qed.
End EpochRounds.

Section WholeRuns.
Context `{Platform}.

Lemma linked_snoc (blocks : list Block) (prev b : Block) :
  linked blocks → last blocks = Some prev → parent_hash_ b = getHash prev →
  linked (blocks ++ [b]).
Proof.
  intros Hlinked Hlast Hparent k x y Hx Hy.
  apply last_Some in Hlast as [front ->].
  destruct (decide (S k < length (front ++ [prev]))%nat) as [Hin|Hout].
  - rewrite lookup_app_l in Hx by lia. rewrite lookup_app_l in Hy by lia.
    by apply (Hlinked k).
  - assert (S k = length (front ++ [prev])) as Hk.
    { apply lookup_lt_Some in Hy. rewrite length_app in Hy. cbn in Hy. lia. }
    rewrite lookup_app_r in Hy by lia. rewrite Hk, Nat.sub_diag in Hy.
    injection Hy as <-.
    rewrite lookup_app_l in Hx by lia.
    rewrite length_app in Hk. cbn in Hk.
    assert (k = length front) as -> by lia.
    rewrite lookup_app_r, Nat.sub_diag in Hx by lia.
    injection Hx as <-. done.
Qed.

Lemma proposals_in_order_snoc clock n adopted head now epoch transactions :
  1 ≤ n → 0 ≤ epoch →
  proposals_in_order clock n adopted →
  last (genesis_block (clock (Z.to_nat (epoch `mod` n))) :: adopted) = Some head →
  proposals_in_order clock n
    (adopted ++ [Block_new now epoch (getHash head) transactions (epoch `mod` n)]).
Proof.
  intros Hn Hepoch (Hvalid & Hlinked & Hfirst) Hhead.
  pose proof (Z.mod_pos_bound epoch n ltac:(lia)) as Hbound.
  split; [|split].
  - apply Forall_app. split; [done|]. apply Forall_singleton.
    rewrite isValid_Block_new. split; [|done].
    apply andb_true_intro. split; apply Z.leb_le; lia.
  - destruct adopted as [|b0 adopted].
    + intros k x y Hx Hy. cbn in Hy. done.
    + assert (is_Some (last (b0 :: adopted))) as [prev Hlast]
        by (by apply last_is_Some).
      rewrite last_cons, Hlast in Hhead. injection Hhead as <-.
      by apply (linked_snoc _ prev).
  - destruct adopted as [|b0 adopted].
    + intros b [= <-]. cbn in Hhead. by injection Hhead as <-.
    + intros b Hb. by apply Hfirst.
Qed.

Lemma run_lockstep clock n calls : ∀ adopted p,
  1 ≤ n →
  Forall (λ call, 0 ≤ call.1.2) calls →
  lockstep clock n adopted p →
  proposals_in_order clock n adopted →
  ∃ added p',
    StreamletProtocol.run calls p = Some p'
    ∧ lockstep clock n (adopted ++ added) p'
    ∧ proposals_in_order clock n (adopted ++ added)
    ∧ map call_of added = calls.
Proof.
  induction calls as [|[[now epoch] transactions] calls IH];
    intros adopted p Hn Hcalls Hlock Horder.
  - exists [], p. rewrite app_nil_r. done.
  - apply Forall_cons in Hcalls as [Hepoch Hcalls]. cbn in Hepoch.
    destruct (runEpoch_lockstep clock n adopted now epoch transactions p Hn Hepoch Hlock)
      as (head & Hhead & p1 & Hrun1 & Hlock1).
    cbv zeta in Hrun1, Hlock1.
    pose proof (proposals_in_order_snoc clock n adopted head now epoch transactions
                  Hn Hepoch Horder Hhead) as Horder1.
    destruct (IH _ p1 Hn Hcalls Hlock1 Horder1)
      as (added & p' & Hrun & Hlock' & Horder' & Hmap).
    exists (Block_new now epoch (getHash head) transactions (epoch `mod` n) :: added), p'.
    cbn [StreamletProtocol.run]. rewrite Hrun1. cbn [mbind option_bind].
    rewrite <- app_assoc in Hlock', Horder'. cbn [app] in Hlock', Horder'.
    split; [done|]. split; [done|]. split; [done|].
    cbn [map]. by rewrite Hmap.
Qed.

Lemma run_from_new clock n calls p0 p :
  1 ≤ n →
  StreamletProtocol.new clock n = inr p0 →
  Forall (λ call, 0 ≤ call.1.2) calls →
  StreamletProtocol.run calls p0 = Some p →
  ∃ adopted,
    lockstep clock n adopted p
    ∧ proposals_in_order clock n adopted
    ∧ map call_of adopted = calls.
Proof.
  intros Hn Hnew Hcalls Hrun.
  destruct (run_lockstep clock n calls [] p0 Hn Hcalls (new_lockstep _ _ _ Hnew))
    as (added & p' & Hrun' & Hlock & Horder & Hmap).
  { split; [by apply Forall_nil|]. split; [by intros k x y ?|by intros b ?]. }
  rewrite Hrun in Hrun'. injection Hrun' as <-. by exists added.
Qed.

(** X8: from a driver with at least one replica, any sequence of
    [runEpoch] calls with non-negative epochs is defined, and afterwards
    all replicas hold the same blocks after their own genesis block: one
    per call, in call order, each built from the call's clock reading,
    epoch and transactions, valid, and proposed by replica
    [epoch mod n]. *)
Theorem run_keeps_replicas_in_lockstep (clock : nat → Z) (n : Z)
    (calls : list (Z * Z * list string)) (p0 : StreamletProtocol.t) :
  1 ≤ n →
  StreamletProtocol.new clock n = inr p0 →
  Forall (λ call, 0 ≤ call.1.2) calls →
  ∃ p adopted,
    StreamletProtocol.run calls p0 = Some p
    ∧ length (StreamletProtocol.nodes_ p) = Z.to_nat n
    ∧ map call_of adopted = calls
    ∧ Forall (λ b, isValid b = true ∧ getProposerId b = getEpoch b `mod` n) adopted
    ∧ ∀ i s, StreamletProtocol.nodes_ p !! i = Some s →
        blockchain_ s = genesis_block (clock i) :: adopted.
Proof.
  intros Hn Hnew Hcalls.
  destruct (run_defined clock n calls p0 Hn Hnew Hcalls) as [p Hrun].
  destruct (run_from_new clock n calls p0 p Hn Hnew Hcalls Hrun)
    as (adopted & (_ & Hlen & Hnodes) & (Hvalid & _) & Hmap).
  exists p, adopted. do 4 (split; [done|]).
  intros i s Hi. by destruct (Hnodes i s Hi) as (_ & _ & ? & _).
Qed.

(** X9: in the chain of every replica, each adopted block after the first
    names the block before it as parent, and the first adopted block
    names the genesis hash of the replica that proposed it; so the whole
    chain of that proposer, genesis included, is linked by parent
    hashes. *)
Theorem adopted_blocks_are_linked (clock : nat → Z) (n : Z)
    (calls : list (Z * Z * list string)) (p0 p : StreamletProtocol.t) :
  1 ≤ n →
  StreamletProtocol.new clock n = inr p0 →
  Forall (λ call, 0 ≤ call.1.2) calls →
  StreamletProtocol.run calls p0 = Some p →
  ∀ i s, StreamletProtocol.nodes_ p !! i = Some s →
    linked (tail (blockchain_ s))
    ∧ (∀ b, blockchain_ s !! 1%nat = Some b →
         0 ≤ getProposerId b < n
         ∧ parent_hash_ b
           = getHash (genesis_block (clock (Z.to_nat (getProposerId b))))
         ∧ (getProposerId b = Z.of_nat i → linked (blockchain_ s))).
Proof.
  intros Hn Hnew Hcalls Hrun i s Hi.
  destruct (run_from_new clock n calls p0 p Hn Hnew Hcalls Hrun)
    as (adopted & (_ & _ & Hnodes) & (Hvalid & Hlinked & Hfirst) & _).
  destruct (Hnodes i s Hi) as (_ & _ & -> & _). cbn [tail].
  split; [done|].
  intros b Hb. cbn in Hb.
  assert (head adopted = Some b) as Hhead by (by rewrite head_lookup).
  pose proof (Hfirst b Hhead) as Hparent.
  destruct adopted as [|b0 adopted]; [done|]. injection Hhead as ->.
  apply Forall_cons in Hvalid as [[_ Hprop] _].
  split; [rewrite Hprop; apply Z.mod_pos_bound; lia|]. split; [done|].
  intros Hown k x y Hx Hy. destruct k as [|k].
  - cbn in Hx, Hy. injection Hx as <-. injection Hy as <-.
    rewrite Hparent, Hown. by rewrite Nat2Z.id.
  - cbn in Hx, Hy. by apply (Hlinked k).
Qed.
End WholeRuns.

Section AcceptedProposals.
Context `{Platform}.

Lemma accept_step_castVote b s :
  snd (receiveProposal (Some b) (getProposerId b) s)
  = (if isValid b then checkFinalization (tally (getHash b) (getEpoch b) (adopt b s)) else s).
Proof.
  destruct (isValid b) eqn:Hvalid.
  - rewrite (receiveProposal_accepts s b _ Hvalid eq_refl). cbn [snd].
    apply castVote_tally.
  - rewrite receiveProposal_unvalidated; [done|].
    unfold validateBlock. by rewrite Hvalid.
Qed.

(** Induction over the proposals a replica has accepted. *)
Lemma accept_steps_invariant (P : StreamletNode → Prop) now node_id n_nodes :
  P (StreamletNode_new now node_id n_nodes) →
  (∀ s b, node_reachable now node_id n_nodes s → isValid b = true → P s →
          P (checkFinalization (tally (getHash b) (getEpoch b) (adopt b s)))) →
  ∀ s, rtc accept_step (StreamletNode_new now node_id n_nodes) s → P s.
Proof.
  intros Hinit Hstep. apply rtc_ind_r; [done|].
  intros s s' Hsteps Hlast IH.
  destruct Hlast as [b s Hvalid].
  rewrite accept_step_castVote, Hvalid.
  apply Hstep; [by apply accept_steps_node_steps|done|done].
Qed.

(** With at most three replicas, a replica that has only accepted
    proposals has notarized every block of its chain and finalized all of
    them but the last. *)
Lemma accept_steps_small now node_id n_nodes s :
  n_nodes ≤ 3 →
  rtc accept_step (StreamletNode_new now node_id n_nodes) s →
  finalized_blocks_ s = removelast (blockchain_ s)
  ∧ notarized_blocks_ s = list_to_set (getHash <$> blockchain_ s).
Proof.
  intros Hn. revert s. apply accept_steps_invariant.
  - rewrite StreamletNode_new_fields. cbn. split; [done|]. set_solver.
  - intros s b Hreach Hvalid [Hfin Hnot].
    destruct (reachable_replica_shape _ _ _ _ Hreach) as (_ & Hnn & rest & Hchain).
    assert (is_Some (last (blockchain_ s))) as [prev Hprev]
      by (apply last_is_Some; by rewrite Hchain).
    apply last_Some in Hprev as [front Hfront].
    set (t := tally (getHash b) (getEpoch b) (adopt b s)).
    assert (blockchain_ t = front ++ [prev; b]) as Hchain_t.
    { unfold t, tally, adopt. cbn [blockchain_]. rewrite Hfront.
      by rewrite <- app_assoc. }
    assert (notarized_blocks_ t = notarized_blocks_ s ∪ {[getHash b]}) as Hnot_t.
    { unfold t, tally, adopt. cbv zeta.
      cbn [notarized_blocks_ n_nodes_ votes_by_epoch_ node_id_].
      rewrite Hnn, (quorum_one _ Hn), votes_at_insert.
      by rewrite (proj2 (Z.leb_le _ _) (size_with_voter _ _)). }
    assert (finalized_blocks_ t = finalized_blocks_ s) as Hfin_t by done.
    rewrite (checkFinalization_last_two t front prev b Hchain_t).
    rewrite bool_decide_eq_true_2.
    + cbn [finalized_blocks_ blockchain_ notarized_blocks_].
      rewrite Hchain_t, Hfin_t, Hnot_t, Hfin, Hnot, Hfront.
      split.
      * rewrite removelast_last.
        replace (front ++ [prev; b]) with ((front ++ [prev]) ++ [b])
          by (by rewrite <- app_assoc).
        by rewrite removelast_last.
      * rewrite !fmap_app, !list_to_set_app_L. cbn. set_solver.
    + rewrite Hnot_t, Hnot, Hfront, fmap_app, list_to_set_app_L. cbn.
      split; set_solver.
Qed.

(** The vote table of a replica that has only accepted proposals. *)
Lemma accept_steps_votes now node_id n_nodes s :
  rtc accept_step (StreamletNode_new now node_id n_nodes) s →
  ∀ epoch h,
    votes_at (votes_by_epoch_ s) epoch h
    = if bool_decide (Exists (λ b, getEpoch b = epoch ∧ getHash b = h)
                        (tail (blockchain_ s)))
      then {[node_id]} else ∅.
Proof.
  revert s. apply (accept_steps_invariant
    (λ s, ∀ epoch h,
       votes_at (votes_by_epoch_ s) epoch h
       = if bool_decide (Exists (λ b, getEpoch b = epoch ∧ getHash b = h)
                           (tail (blockchain_ s)))
         then {[node_id]} else ∅)).
  - intros epoch h. rewrite StreamletNode_new_fields. cbn [votes_by_epoch_ blockchain_ tail].
    rewrite votes_at_empty, bool_decide_eq_false_2; [done|].
    intros Hex. by apply Exists_nil in Hex.
  - intros s b Hreach Hvalid IH epoch h.
    destruct (reachable_replica_shape _ _ _ _ Hreach) as (Hid & _ & rest & Hchain).
    destruct (checkFinalization_fields (tally (getHash b) (getEpoch b) (adopt b s)))
      as (_ & _ & -> & _ & -> & _).
    unfold tally, adopt. cbv zeta. cbn [votes_by_epoch_ blockchain_ node_id_].
    rewrite Hchain in IH |- *. cbn [app tail] in IH |- *. rewrite Hid.
    destruct (decide ((epoch, h) = (getEpoch b, getHash b))) as [[= -> ->]|Hne].
    + rewrite votes_at_insert, IH.
      rewrite (bool_decide_eq_true_2 (Exists _ (rest ++ [b]))).
      * case_bool_decide; set_solver.
      * apply Exists_app. right. by apply Exists_cons_hd.
    + rewrite votes_at_insert_other, IH by done.
      rewrite (bool_decide_ext
                 (Exists (λ b0, getEpoch b0 = epoch ∧ getHash b0 = h) (rest ++ [b]))
                 (Exists (λ b0, getEpoch b0 = epoch ∧ getHash b0 = h) rest)); [done|].
      rewrite Exists_app, Exists_cons, Exists_nil. split; [|by left].
      intros [Hex|[[He Hh]|[]]]; [done|].
      destruct Hne. by rewrite He, Hh.
Qed.
End AcceptedProposals.

Section RunResults.
Context `{Platform}.

Lemma simulation_calls_nonneg (clock : Z → Z) (num_epochs transactions_per_epoch : Z) :
  Forall (λ call : Z * Z * list string, 0 ≤ call.1.2)
    (map (λ k, let e := Z.of_nat k in
               (clock e, e,
                StreamletProtocol.epoch_transactions e transactions_per_epoch))
         (seq 1 (Z.to_nat num_epochs))).
Proof. apply Forall_forall. intros call (k & -> & _)%list_elem_of_fmap. cbn. lia. Qed.

(** X10: [runSimulation(E, t)] with [E < INT_MAX] on a driver with at
    least one replica is defined, and afterwards the statistics of replica
    [i] report id [i], [E + 1] blocks (so at least 2 when [E ≥ 1], which is
    what the repository's test requires) and latest epoch [E]; the block
    adopted in epoch [k] carries epoch [k] and the [t] transactions
    synthesised for it.  A negative [E] counts as 0.  For [E = INT_MAX] the
    loop counter overflows and the simulation is undefined. *)
Theorem runSimulation_statistics (clock : nat → Z) (epoch_clock : Z → Z)
    (n num_epochs transactions_per_epoch : Z) (p0 : StreamletProtocol.t) :
  1 ≤ n →
  StreamletProtocol.new clock n = inr p0 →
  (num_epochs = INT_MAX →
   StreamletProtocol.runSimulation epoch_clock num_epochs transactions_per_epoch p0
   = None)
  ∧ (num_epochs < INT_MAX →
  ∃ p,
    StreamletProtocol.runSimulation epoch_clock num_epochs transactions_per_epoch p0
    = Some p
    ∧ ∀ i s, StreamletProtocol.nodes_ p !! i = Some s →
        NodeStats.node_id (getStats s) = Z.of_nat i
        ∧ NodeStats.total_blocks (getStats s) = S (Z.to_nat num_epochs)
        ∧ (1 ≤ num_epochs → (2 ≤ NodeStats.total_blocks (getStats s))%nat)
        ∧ NodeStats.latest_epoch (getStats s) = Z.max 0 num_epochs
        ∧ ∀ k b, blockchain_ s !! S k = Some b →
            getEpoch b = Z.of_nat (S k)
            ∧ transactions_ b
              = StreamletProtocol.epoch_transactions (Z.of_nat (S k)) transactions_per_epoch
            ∧ length (transactions_ b) = Z.to_nat transactions_per_epoch).
Proof.
  intros Hn Hnew. unfold StreamletProtocol.runSimulation. split.
  { intros ->. by rewrite Z.leb_refl. }
  intros Hbound. rewrite (proj2 (Z.leb_gt _ _) Hbound).
  set (calls := map _ (seq 1 (Z.to_nat num_epochs))).
  pose proof (simulation_calls_nonneg epoch_clock num_epochs transactions_per_epoch)
    as Hcalls. fold calls in Hcalls.
  destruct (run_defined clock n calls p0 Hn Hnew Hcalls) as [p Hrun].
  exists p. split; [done|].
  destruct (run_from_new clock n calls p0 p Hn Hnew Hcalls Hrun)
    as (adopted & (_ & _ & Hnodes) & _ & Hmap).
  assert (length adopted = Z.to_nat num_epochs) as Hlen.
  { rewrite <- (length_map call_of), Hmap. unfold calls.
    by rewrite length_map, length_seq. }
  assert (∀ k b, adopted !! k = Some b →
            call_of b = (epoch_clock (Z.of_nat (S k)), Z.of_nat (S k),
                         StreamletProtocol.epoch_transactions (Z.of_nat (S k))
                           transactions_per_epoch)) as Hcall.
  { intros k b Hk.
    assert (calls !! k = Some (call_of b)) as Hc.
    { rewrite <- Hmap. change (map call_of adopted) with (call_of <$> adopted).
      by rewrite list_lookup_fmap, Hk. }
    unfold calls in Hc. change (map ?f ?l) with (f <$> l) in Hc.
    rewrite list_lookup_fmap in Hc.
    destruct (seq 1 (Z.to_nat num_epochs) !! k) as [j|] eqn:Hj; [|done].
    apply lookup_seq in Hj as [-> _].
    apply (inj Some) in Hc. by rewrite <- Hc. }
  intros i s Hi. destruct (Hnodes i s Hi) as (Hid & _ & Hchain & _).
  unfold getStats.
  cbn [NodeStats.node_id NodeStats.total_blocks NodeStats.latest_epoch].
  rewrite Hchain. cbn [length]. rewrite Hlen.
  split; [done|]. split; [done|]. split; [lia|]. split.
  - destruct (last adopted) as [b|] eqn:Hlast.
    + rewrite last_cons, Hlast.
      rewrite last_lookup in Hlast. pose proof (Hcall _ _ Hlast) as Hb.
      apply lookup_lt_Some in Hlast.
      pose proof (f_equal (λ c : Z * Z * list string, c.1.2) Hb) as Hepoch.
      cbn in Hepoch. unfold getEpoch. rewrite Hepoch. lia.
    + rewrite last_cons, Hlast.
      assert (adopted = []) as Hnil.
      { destruct adopted as [|b0 adopted]; [done|].
        by destruct (proj2 (last_is_Some (b0 :: adopted)) ltac:(done)) as [? ?];
          simplify_eq. }
      rewrite Hnil in Hlen. cbn in Hlen. cbn. lia.
  - intros k b Hk. cbn in Hk. pose proof (Hcall _ _ Hk) as Hb.
    pose proof (f_equal (λ c : Z * Z * list string, c.1.2) Hb) as Hepoch.
    pose proof (f_equal snd Hb) as Htxs.
    cbn in Hepoch, Htxs. unfold getEpoch.
    split; [done|]. split; [done|].
    rewrite Htxs. unfold StreamletProtocol.epoch_transactions.
    by rewrite length_map, length_seq.
Qed.

(** X11: in a driver with one to three replicas (quorum 1), after any
    sequence of [runEpoch] calls with non-negative epochs, every replica
    has notarized every block of its chain and finalized, in order, all of
    them but the last; its finalized count is the number of calls. *)
Theorem small_driver_finalizes_all_but_last (clock : nat → Z) (n : Z)
    (calls : list (Z * Z * list string)) (p0 p : StreamletProtocol.t) :
  1 ≤ n ≤ 3 →
  StreamletProtocol.new clock n = inr p0 →
  Forall (λ call, 0 ≤ call.1.2) calls →
  StreamletProtocol.run calls p0 = Some p →
  ∀ i s, StreamletProtocol.nodes_ p !! i = Some s →
    finalized_blocks_ s = removelast (blockchain_ s)
    ∧ notarized_blocks_ s = list_to_set (getHash <$> blockchain_ s)
    ∧ NodeStats.finalized_blocks (getStats s) = length calls.
Proof.
  intros [Hn Hsmall] Hnew Hcalls Hrun i s Hi.
  destruct (run_from_new clock n calls p0 p Hn Hnew Hcalls Hrun)
    as (adopted & (_ & _ & Hnodes) & _ & Hmap).
  destruct (Hnodes i s Hi) as (_ & _ & Hchain & Hsteps).
  destruct (accept_steps_small _ _ _ _ Hsmall Hsteps) as [Hfin Hnot].
  split; [done|]. split; [done|].
  unfold getStats. cbn [NodeStats.finalized_blocks].
  rewrite Hfin, Hchain, <- Hmap, length_map.
  destruct adopted as [|b adopted] using rev_ind; [done|].
  rewrite app_comm_cons, removelast_last, length_app. cbn. lia.
Qed.

(** X12: after any sequence of [runEpoch] calls with non-negative epochs,
    the vote table of replica [i] holds exactly one vote, its own, for the
    epoch and hash of every block it adopted after genesis, and no vote
    for anything else: no replica ever learns of another replica's
    vote. *)
Theorem replicas_vote_for_what_they_adopt (clock : nat → Z) (n : Z)
    (calls : list (Z * Z * list string)) (p0 p : StreamletProtocol.t) :
  1 ≤ n →
  StreamletProtocol.new clock n = inr p0 →
  Forall (λ call, 0 ≤ call.1.2) calls →
  StreamletProtocol.run calls p0 = Some p →
  ∀ i s, StreamletProtocol.nodes_ p !! i = Some s →
    (∀ b, b ∈ tail (blockchain_ s) →
       votes_at (votes_by_epoch_ s) (getEpoch b) (getHash b) = {[Z.of_nat i]})
    ∧ (∀ epoch h,
         (∀ b, b ∈ tail (blockchain_ s) → (getEpoch b, getHash b) ≠ (epoch, h)) →
         votes_at (votes_by_epoch_ s) epoch h = ∅).
Proof.
  intros Hn Hnew Hcalls Hrun i s Hi.
  destruct (run_from_new clock n calls p0 p Hn Hnew Hcalls Hrun)
    as (adopted & (_ & _ & Hnodes) & _ & _).
  destruct (Hnodes i s Hi) as (_ & _ & _ & Hsteps).
  pose proof (accept_steps_votes _ _ _ _ Hsteps) as Hvotes.
  split.
  - intros b Hb. rewrite Hvotes, bool_decide_eq_true_2; [done|].
    apply Exists_exists. by exists b.
  - intros epoch h Hnone. rewrite Hvotes, bool_decide_eq_false_2; [done|].
    intros (b & Hb & He & Hh)%Exists_exists.
    apply (Hnone b Hb). by rewrite He, Hh.
Qed.

Lemma run_shape_ids clock n calls p0 p :
  StreamletProtocol.new clock n = inr p0 →
  StreamletProtocol.run calls p0 = Some p →
  driver_shape n p
  ∧ ∀ i s, StreamletProtocol.nodes_ p !! i = Some s → node_id_ s = Z.of_nat i.
Proof.
  intros Hnew Hrun.
  destruct (new_replicas _ _ _ Hnew) as (Hn0 & Hlen0 & _).
  destruct (run_evolves _ _ _ Hrun) as [Hn Hev].
  assert (∀ i s, StreamletProtocol.nodes_ p !! i = Some s →
            node_id_ s = Z.of_nat i ∧ n_nodes_ s = n) as Hnodes.
  { intros i s Hi.
    pose proof (driver_replica_reachable _ _ _ _ _ _ _ Hnew Hrun Hi) as Hreach.
    by destruct (reachable_replica_shape _ _ _ _ Hreach) as (? & ? & _). }
  split; [split; [congruence|split]|].
  - by rewrite <- (Forall2_length _ _ _ Hev).
  - intros i s Hi. by destruct (Hnodes i s Hi).
  - intros i s Hi. by destruct (Hnodes i s Hi).
Qed.

(** X13: [runEpoch] with a negative epoch, on any driver state reached
    from the constructor with at least one replica: when the epoch is a
    multiple of the replica count, replica 0 builds a block that every
    replica rejects, and the driver is left exactly as it was; otherwise
    the leader index [epoch % n] is negative and the access to [nodes_] is
    out of bounds. *)
Theorem runEpoch_with_negative_epoch (clock : nat → Z) (n : Z)
    (calls : list (Z * Z * list string)) (p0 p : StreamletProtocol.t)
    (now epoch : Z) (transactions : list string) :
  1 ≤ n → epoch < 0 →
  StreamletProtocol.new clock n = inr p0 →
  StreamletProtocol.run calls p0 = Some p →
  StreamletProtocol.runEpoch now epoch transactions p
  = if Z.rem epoch n =? 0 then Some p else None.
Proof.
  intros Hn Hepoch Hnew Hrun.
  destruct (run_shape_ids _ _ _ _ _ Hnew Hrun) as [Hshape Hids].
  pose proof (Z.rem_nonpos epoch n ltac:(lia) ltac:(lia)) as Hsign.
  destruct (Z.eqb_spec (Z.rem epoch n) 0) as [Hzero|Hnonzero].
  - destruct (runEpoch_map now epoch transactions n p Hn ltac:(lia) Hshape Hids)
      as (leaderNode & Hlookup & ->).
    f_equal. destruct Hshape as (Hnn & _).
    transitivity (StreamletProtocol.mk n (StreamletProtocol.nodes_ p));
      [|destruct p; cbn in Hnn; by subst].
    f_equal.
    rewrite <- (list_fmap_id (StreamletProtocol.nodes_ p)) at 2. apply list_fmap_ext.
    intros i s _. cbv beta.
    rewrite receiveProposal_unvalidated; [done|].
    unfold validateBlock, proposeBlock. cbv zeta.
    cbn [fst]. rewrite isValid_Block_new.
    by rewrite (proj2 (Z.leb_gt _ _) Hepoch).
  - destruct Hshape as (Hnn & Hlen & Hnodes).
    unfold StreamletProtocol.runEpoch.
    destruct (StreamletProtocol.nodes_ p) as [|front rest] eqn:Hlist;
      [cbn in Hlen; lia|].
    cbn [head mbind option_bind].
    assert (n_nodes_ front = n) as Hfront by (by apply (Hnodes 0%nat)).
    unfold getEpochLeader. rewrite Hfront.
    rewrite (proj2 (Z.eqb_neq _ _)) by lia.
    by rewrite (proj2 (Z.ltb_lt _ _)) by lia.
Qed.

(** X14: [main] never builds a driver with less than one replica and
    never runs less than one epoch.  Whatever integers [atoi] yields for
    the arguments, the constructor succeeds; when the epoch count is below
    [INT_MAX] the simulation is defined and every replica ends with one
    block per epoch after genesis, hence at least two blocks; when it is
    [INT_MAX] the loop counter of [runSimulation] overflows and the run is
    undefined. *)
Theorem main_runs_to_completion (built : nat → Z) (epoch_clock : Z → Z)
    (args : list Z) :
  INT_MAX ≤ vector_max_size →
  Forall in_int args →
  1 ≤ Main.replicas args ≤ INT_MAX ∧ 1 ≤ Main.epochs args ≤ INT_MAX
  ∧ (Main.epochs args = INT_MAX → Main.main built epoch_clock args = inr None)
  ∧ (Main.epochs args < INT_MAX →
     ∃ p,
       Main.main built epoch_clock args = inr (Some p)
       ∧ length (StreamletProtocol.nodes_ p) = Z.to_nat (Main.replicas args)
       ∧ ∀ i s, StreamletProtocol.nodes_ p !! i = Some s →
           blockchain_ s !! 0%nat = Some (genesis_block (built i))
           ∧ length (blockchain_ s) = S (Z.to_nat (Main.epochs args))
           ∧ (2 ≤ length (blockchain_ s))%nat).
Proof.
  intros Hmax Hargs.
  assert (1 ≤ Main.replicas args ≤ INT_MAX) as Hn.
  { unfold Main.replicas. destruct (args !! 0%nat) as [a|] eqn:Ha.
    - pose proof (Forall_lookup_1 _ _ _ _ Hargs Ha) as Hint.
      unfold in_int, INT_MIN, INT_MAX in *. lia.
    - unfold INT_MAX. lia. }
  assert (1 ≤ Main.epochs args ≤ INT_MAX) as He.
  { unfold Main.epochs. destruct (args !! 1%nat) as [a|] eqn:Ha.
    - pose proof (Forall_lookup_1 _ _ _ _ Hargs Ha) as Hint.
      unfold in_int, INT_MIN, INT_MAX in *. lia.
    - unfold INT_MAX. lia. }
  split; [done|]. split; [done|].
  unfold Main.main.
  destruct (StreamletProtocol.new built (Main.replicas args)) as [e|p0] eqn:Hnew.
  { exfalso. unfold StreamletProtocol.new, to_size_t in Hnew.
    rewrite Z.mod_small in Hnew by (unfold INT_MAX in *; lia).
    by rewrite (proj2 (Z.ltb_ge _ _)) in Hnew by lia. }
  unfold StreamletProtocol.runSimulation. split.
  { intros ->. by rewrite Z.leb_refl. }
  intros Hbound. rewrite (proj2 (Z.leb_gt _ _) Hbound).
  set (calls := map _ (seq 1 (Z.to_nat (Main.epochs args)))).
  pose proof (simulation_calls_nonneg epoch_clock (Main.epochs args) 3) as Hcalls.
  fold calls in Hcalls.
  destruct (run_defined built (Main.replicas args) calls p0 ltac:(lia) Hnew Hcalls)
    as [p Hrun].
  exists p. rewrite Hrun. split; [done|].
  destruct (run_from_new built (Main.replicas args) calls p0 p ltac:(lia) Hnew Hcalls Hrun)
    as (adopted & (_ & Hlen & Hnodes) & _ & Hmap).
  split; [done|].
  intros i s Hi. destruct (Hnodes i s Hi) as (_ & _ & -> & _).
  assert (length adopted = Z.to_nat (Main.epochs args)) as Hadopted.
  { rewrite <- (length_map call_of), Hmap. unfold calls.
    by rewrite length_map, length_seq. }
  cbn [length]. rewrite Hadopted. split; [done|]. split; [done|]. lia.
Qed.
End RunResults.

Section Construction.
Context `{Platform}.

(** X15: for a replica count between 0 and [INT_MAX] the constructor
    succeeds and builds that many replicas, replica [i] with id [i]; each
    holds only its genesis block, registered and notarized, no vote and no
    finalized block, so its statistics read 1 block, 0 finalized,
    1 notarized, latest epoch 0. *)
Theorem constructor_builds_fresh_replicas (clock : nat → Z) (n : Z) :
  0 ≤ n ≤ INT_MAX → INT_MAX ≤ vector_max_size →
  ∃ p,
    StreamletProtocol.new clock n = inr p
    ∧ StreamletProtocol.n_nodes_ p = n
    ∧ length (StreamletProtocol.nodes_ p) = Z.to_nat n
    ∧ ∀ i, (i < Z.to_nat n)%nat →
        ∃ s, StreamletProtocol.nodes_ p !! i = Some s
             ∧ getStats s = NodeStats.mk (Z.of_nat i) 1 0 1 0
             ∧ n_nodes_ s = n
             ∧ blockchain_ s = [genesis_block (clock i)]
             ∧ block_by_hash_ s !! getHash (genesis_block (clock i))
               = Some (genesis_block (clock i))
             ∧ notarized_blocks_ s = {[getHash (genesis_block (clock i))]}
             ∧ votes_by_epoch_ s = ∅
             ∧ finalized_blocks_ s = [].
Proof.
  unfold INT_MAX. intros Hn Hmax.
  destruct (StreamletProtocol.new clock n) as [e|p] eqn:Hnew.
  { exfalso. unfold StreamletProtocol.new, to_size_t in Hnew.
    rewrite Z.mod_small in Hnew by lia.
    by rewrite (proj2 (Z.ltb_ge _ _)) in Hnew by lia. }
  exists p. destruct (new_replicas _ _ _ Hnew) as (Hnn & Hlen & Hinit).
  do 3 (split; [done|]).
  intros i Hi.
  destruct (lookup_lt_is_Some_2 (StreamletProtocol.nodes_ p) i) as [s Hs]; [lia|].
  exists s. split; [done|]. rewrite (Hinit _ _ Hs), StreamletNode_new_fields.
  unfold getStats.
  cbn [node_id_ n_nodes_ blockchain_ block_by_hash_ votes_by_epoch_
       notarized_blocks_ finalized_blocks_].
  rewrite size_singleton.
  split; [reflexivity|]. do 2 (split; [done|]).
  split; [apply lookup_singleton_eq|done].
Qed.
End Construction.

(** ** Concrete executions of the further properties *)

Module MoreExecutions.
#[local] Existing Instance Sample.platform.
Import Scenario Scenario3.

Lemma three_epochs_nonneg : Forall (λ call : Z * Z * list string, 0 ≤ call.1.2) three_epochs.
Proof. repeat constructor; cbn; lia. Qed.

(** Witness of C6: the single replica's proposal for epoch 1 is notarized
    by the proposal itself. *)
Lemma lone_proposal_is_notarized :
  INT_MIN < n_nodes_ lone_replica ≤ INT_MAX
  ∧ blockchain_ (snd lone_proposal) = blockchain_ lone_replica ++ [fst lone_proposal]
  ∧ getHash (fst lone_proposal) ∈ notarized_blocks_ (snd lone_proposal).
Proof.
  assert (INT_MIN < n_nodes_ lone_replica ≤ INT_MAX) as Hrange
    by (split; vm_compute; [reflexivity|discriminate]).
  assert (0 ≤ node_id_ lone_replica) as Hid by (vm_compute; discriminate).
  destruct (castVote_notarizes_at_quorum ""%string 1 lone_replica Hrange)
    as (_ & _ & _ & _ & _ & _ & Hpropose).
  destruct (Hpropose (epoch_time 1) ["tx_1_0"%string] eq_refl ltac:(lia) Hid)
    as [Hchain Hnot].
  split; [exact Hrange|]. split; [exact Hchain|exact Hnot].
Defined.

(** Witness of X2: the lone replica before and after its proposal. *)
Lemma lone_replica_grows :
  rtc node_step lone_replica (snd lone_proposal)
  ∧ blockchain_ lone_replica `prefix_of` blockchain_ (snd lone_proposal)
  ∧ notarized_blocks_ lone_replica ⊆ notarized_blocks_ (snd lone_proposal).
Proof.
  assert (rtc node_step lone_replica (snd lone_proposal)) as Hsteps
    by (apply rtc_once; exact (step_proposeBlock _ _ _ _)).
  destruct (replica_state_only_grows _ _ Hsteps) as (Hchain & _ & _ & Hnot & _).
  split; [exact Hsteps|]. split; [exact Hchain|exact Hnot].
Defined.

(** Witness of X3. *)
Lemma lone_replica_registry :
  node_reachable (built 0) 0 1 (snd lone_proposal)
  ∧ head (blockchain_ (snd lone_proposal)) = Some (genesis_block (built 0)).
Proof.
  assert (node_reachable (built 0) 0 1 (snd lone_proposal)) as Hreach
    by (apply rtc_once; exact (step_proposeBlock _ _ _ _)).
  destruct (replica_registry_covers_chain _ _ _ _ Hreach) as (Hhead & _).
  split; [exact Hreach|exact Hhead].
Defined.

(** Witness of X4. *)
Lemma lone_replica_votes :
  node_reachable (built 0) 0 1 (snd lone_proposal)
  ∧ ∀ epoch h, votes_at (votes_by_epoch_ (snd lone_proposal)) epoch h ⊆ {[0]}.
Proof.
  assert (node_reachable (built 0) 0 1 (snd lone_proposal)) as Hreach
    by (apply rtc_once; exact (step_proposeBlock _ _ _ _)).
  destruct (notarized_set_characterised _ _ _ _ Hreach) as (Hvotes & _).
  split; [exact Hreach|exact Hvotes].
Defined.

(** Witness of X5: replica 1 of four accepts its own block. *)
Lemma own_block_is_accepted :
  isValid block_of_1 = true ∧ 1 = getProposerId block_of_1
  ∧ fst (receiveProposal (Some block_of_1) 1 fresh_replica_1) = true
  ∧ findLongestNotarizedChain (snd (receiveProposal (Some block_of_1) 1 fresh_replica_1))
    = Some block_of_1.
Proof.
  assert (isValid block_of_1 = true) as Hvalid by (vm_compute; reflexivity).
  assert (1 = getProposerId block_of_1) as Hprop by reflexivity.
  destruct (accepted_proposal_is_adopted fresh_replica_1 block_of_1 1 Hvalid Hprop)
    as (Hret & _ & Hhead & _).
  split; [exact Hvalid|]. split; [exact Hprop|]. split; [exact Hret|exact Hhead].
Defined.

(** Witness of X6: the lone replica's proposal extends its genesis
    block. *)
Lemma lone_proposal_extends_genesis :
  node_reachable (built 0) 0 1 lone_replica
  ∧ ∃ head,
      findLongestNotarizedChain lone_replica = Some head
      ∧ fst lone_proposal
        = Block_new (epoch_time 1) 1 (getHash head) ["tx_1_0"%string] 0.
Proof.
  assert (node_reachable (built 0) 0 1 lone_replica) as Hreach by apply rtc_refl.
  destruct (proposeBlock_extends_head (built 0) 0 1 lone_replica (epoch_time 1) 1
              ["tx_1_0"%string] Hreach) as (head & Hhead & Hblock & _).
  split; [exact Hreach|]. exists head. split; [exact Hhead|exact Hblock].
Defined.

(** Witness of X7. *)
Lemma block_delivered_twice :
  isValid block_of_1 = true
  ∧ blockchain_
      (snd (receiveProposal (Some block_of_1) (getProposerId block_of_1)
              (snd (receiveProposal (Some block_of_1) (getProposerId block_of_1)
                      fresh_replica_1))))
    = blockchain_ fresh_replica_1 ++ [block_of_1; block_of_1].
Proof.
  assert (isValid block_of_1 = true) as Hvalid by (vm_compute; reflexivity).
  destruct (duplicate_delivery_is_adopted_again fresh_replica_1 block_of_1 Hvalid)
    as (Hchain & _).
  split; [exact Hvalid|exact Hchain].
Defined.

(** Witness of X8: the test's scenario. *)
Lemma four_replicas_in_lockstep :
  1 ≤ 4 ∧ StreamletProtocol.new built 4 = inr four_replicas
  ∧ ∃ p adopted,
      StreamletProtocol.run three_epochs four_replicas = Some p
      ∧ length (StreamletProtocol.nodes_ p) = 4%nat
      ∧ map call_of adopted = three_epochs.
Proof.
  assert (StreamletProtocol.new built 4 = inr four_replicas) as Hnew
    by (vm_compute; reflexivity).
  destruct (run_keeps_replicas_in_lockstep built 4 three_epochs four_replicas
              ltac:(lia) Hnew three_epochs_nonneg)
    as (p & adopted & Hrun & Hlen & Hmap & _).
  split; [lia|]. split; [exact Hnew|]. exists p, adopted.
  split; [exact Hrun|]. split; [exact Hlen|exact Hmap].
Defined.

(** Witness of X9. *)
Lemma replica_2_chain_is_linked :
  StreamletProtocol.new built 4 = inr four_replicas
  ∧ StreamletProtocol.run three_epochs four_replicas = Some after_three_epochs
  ∧ StreamletProtocol.nodes_ after_three_epochs !! 2%nat = Some replica_2
  ∧ linked (tail (blockchain_ replica_2)).
Proof.
  assert (StreamletProtocol.new built 4 = inr four_replicas) as Hnew
    by (vm_compute; reflexivity).
  assert (StreamletProtocol.run three_epochs four_replicas = Some after_three_epochs)
    as Hrun by (vm_compute; reflexivity).
  assert (StreamletProtocol.nodes_ after_three_epochs !! 2%nat = Some replica_2)
    as Hreplica by (vm_compute; reflexivity).
  destruct (adopted_blocks_are_linked built 4 three_epochs four_replicas
              after_three_epochs ltac:(lia) Hnew three_epochs_nonneg Hrun
              2%nat replica_2 Hreplica) as (Hlinked & _).
  split; [exact Hnew|]. split; [exact Hrun|]. split; [exact Hreplica|exact Hlinked].
Defined.

(** Witness of X10. *)
Lemma test_simulation_is_defined :
  1 ≤ 4 ∧ StreamletProtocol.new built 4 = inr four_replicas ∧ 3 < INT_MAX
  ∧ ∃ p, StreamletProtocol.runSimulation epoch_time 3 2 four_replicas = Some p
         ∧ ∀ i s, StreamletProtocol.nodes_ p !! i = Some s →
             NodeStats.total_blocks (getStats s) = 4%nat.
Proof.
  assert (StreamletProtocol.new built 4 = inr four_replicas) as Hnew
    by (vm_compute; reflexivity).
  assert (3 < INT_MAX) as Hbound by (vm_compute; reflexivity).
  destruct (runSimulation_statistics built epoch_time 4 3 2 four_replicas
              ltac:(lia) Hnew) as [_ Hdefined].
  destruct (Hdefined Hbound) as (p & Hrun & Hstats).
  split; [lia|]. split; [exact Hnew|]. split; [exact Hbound|].
  exists p. split; [exact Hrun|].
  intros i s Hi. destruct (Hstats i s Hi) as (_ & Htotal & _). exact Htotal.
Defined.

(** Witness of X11: with three replicas, replica 0 has finalized genesis
    and the first two proposals. *)
Lemma three_replicas_finalize :
  1 ≤ 3 ≤ 3 ∧ StreamletProtocol.new built 3 = inr three_replicas
  ∧ StreamletProtocol.run three_epochs three_replicas = Some three_after
  ∧ StreamletProtocol.nodes_ three_after !! 0%nat = Some small_replica_0
  ∧ finalized_blocks_ small_replica_0 = removelast (blockchain_ small_replica_0)
  ∧ NodeStats.finalized_blocks (getStats small_replica_0) = 3%nat.
Proof.
  assert (StreamletProtocol.new built 3 = inr three_replicas) as Hnew
    by (vm_compute; reflexivity).
  assert (StreamletProtocol.run three_epochs three_replicas = Some three_after)
    as Hrun by (vm_compute; reflexivity).
  assert (StreamletProtocol.nodes_ three_after !! 0%nat = Some small_replica_0)
    as Hreplica by (vm_compute; reflexivity).
  destruct (small_driver_finalizes_all_but_last built 3 three_epochs three_replicas
              three_after ltac:(lia) Hnew three_epochs_nonneg Hrun
              0%nat small_replica_0 Hreplica) as (Hfin & _ & Hcount).
  split; [lia|]. split; [exact Hnew|]. split; [exact Hrun|]. split; [exact Hreplica|].
  split; [exact Hfin|exact Hcount].
Defined.

(** Witness of X12. *)
Lemma replica_2_votes :
  StreamletProtocol.new built 4 = inr four_replicas
  ∧ StreamletProtocol.run three_epochs four_replicas = Some after_three_epochs
  ∧ StreamletProtocol.nodes_ after_three_epochs !! 2%nat = Some replica_2
  ∧ ∀ b, b ∈ tail (blockchain_ replica_2) →
      votes_at (votes_by_epoch_ replica_2) (getEpoch b) (getHash b) = {[2]}.
Proof.
  assert (StreamletProtocol.new built 4 = inr four_replicas) as Hnew
    by (vm_compute; reflexivity).
  assert (StreamletProtocol.run three_epochs four_replicas = Some after_three_epochs)
    as Hrun by (vm_compute; reflexivity).
  assert (StreamletProtocol.nodes_ after_three_epochs !! 2%nat = Some replica_2)
    as Hreplica by (vm_compute; reflexivity).
  destruct (replicas_vote_for_what_they_adopt built 4 three_epochs four_replicas
              after_three_epochs ltac:(lia) Hnew three_epochs_nonneg Hrun
              2%nat replica_2 Hreplica) as (Hvotes & _).
  split; [exact Hnew|]. split; [exact Hrun|]. split; [exact Hreplica|exact Hvotes].
Defined.

(** Witness of X13: epoch -4 with four replicas changes nothing, epoch -1
    is out of bounds. *)
Lemma negative_epochs_in_test_scenario :
  1 ≤ 4 ∧ -4 < 0 ∧ -1 < 0
  ∧ StreamletProtocol.new built 4 = inr four_replicas
  ∧ StreamletProtocol.run three_epochs four_replicas = Some after_three_epochs
  ∧ StreamletProtocol.runEpoch (epoch_time 4) (-4) [] after_three_epochs
    = Some after_three_epochs
  ∧ StreamletProtocol.runEpoch (epoch_time 4) (-1) [] after_three_epochs = None.
Proof.
  assert (StreamletProtocol.new built 4 = inr four_replicas) as Hnew
    by (vm_compute; reflexivity).
  assert (StreamletProtocol.run three_epochs four_replicas = Some after_three_epochs)
    as Hrun by (vm_compute; reflexivity).
  split; [lia|]. split; [lia|]. split; [lia|]. split; [exact Hnew|]. split; [exact Hrun|].
  split.
  - exact (runEpoch_with_negative_epoch built 4 three_epochs four_replicas
             after_three_epochs (epoch_time 4) (-4) [] ltac:(lia) ltac:(lia) Hnew Hrun).
  - exact (runEpoch_with_negative_epoch built 4 three_epochs four_replicas
             after_three_epochs (epoch_time 4) (-1) [] ltac:(lia) ltac:(lia) Hnew Hrun).
Defined.

(** Witness of X14: [main] called with the arguments "0" and "-3" runs
    one replica for one epoch. *)
Lemma main_with_small_arguments :
  INT_MAX ≤ vector_max_size ∧ Forall in_int [0; -3]
  ∧ Main.replicas [0; -3] = 1 ∧ Main.epochs [0; -3] = 1
  ∧ ∃ p, Main.main built epoch_time [0; -3] = inr (Some p)
         ∧ length (StreamletProtocol.nodes_ p) = 1%nat.
Proof.
  assert (INT_MAX ≤ vector_max_size) as Hmax by (vm_compute; discriminate).
  assert (Forall in_int [0; -3]) as Hargs
    by (repeat constructor; unfold INT_MIN, INT_MAX; lia).
  destruct (main_runs_to_completion built epoch_time [0; -3] Hmax Hargs)
    as (_ & _ & _ & Hdefined).
  destruct (Hdefined ltac:(vm_compute; reflexivity)) as (p & Hmain & Hlen & _).
  split; [exact Hmax|]. split; [exact Hargs|]. split; [reflexivity|].
  split; [reflexivity|]. exists p. split; [exact Hmain|exact Hlen].
Defined.

(** Witness of X15. *)
Lemma four_fresh_replicas :
  0 ≤ 4 ≤ INT_MAX ∧ INT_MAX ≤ vector_max_size
  ∧ ∃ p, StreamletProtocol.new built 4 = inr p
         ∧ length (StreamletProtocol.nodes_ p) = 4%nat.
Proof.
  assert (0 ≤ 4 ≤ INT_MAX) as Hn by (unfold INT_MAX; lia).
  assert (INT_MAX ≤ vector_max_size) as Hmax by (vm_compute; discriminate).
  destruct (constructor_builds_fresh_replicas built 4 Hn Hmax)
    as (p & Hnew & _ & Hlen & _).
  split; [exact Hn|]. split; [exact Hmax|]. exists p. split; [exact Hnew|exact Hlen].
Defined.
End MoreExecutions.

(** ** The execution under colliding hashes *)

Module CollidingExecutions.
#[local] Existing Instance Sample.colliding.
Import Collision.

(** Counterexample to C1 as stated: when the proposed block's hash
    collides with the genesis hash, one epoch with four replicas makes
    every replica finalize its genesis block, although no replica holds
    more than its own vote and nothing but the genesis hash is
    notarized. *)
Lemma hash_collision_finalizes_genesis :
  StreamletProtocol.new Scenario.built 4 = inr four_replicas
  ∧ StreamletProtocol.run one_epoch four_replicas = Some after_one_epoch
  ∧ map (λ s, length (blockchain_ s)) (StreamletProtocol.nodes_ after_one_epoch)
    = [2; 2; 2; 2]%nat
  ∧ map (λ s, size (notarized_blocks_ s)) (StreamletProtocol.nodes_ after_one_epoch)
    = [1; 1; 1; 1]%nat
  ∧ map finalized_blocks_ (StreamletProtocol.nodes_ after_one_epoch)
    = map (λ i, [genesis_block (Scenario.built i)]) [0; 1; 2; 3]%nat.
Proof. repeat split; vm_compute; reflexivity. Qed.
End CollidingExecutions.
